(** * Console-Calculator: the expression compiler of [main.cpp]

    A shallow embedding of the calculator's parser and evaluator, and of
    the parser of the earlier file (src/unnamed/part_000).

    - [double] is IEEE binary64, here Rocq's primitive [float]; the four
      arithmetic operators are the primitive ones.
    - [std::string] is [string]; [expression[i]] is the head of the part of
      the string a loop still has to read, [substr(pos, len)] is
      [substring pos len], [size()] is [length].
    - The loop indices and the two parenthesis counters are [int] in the
      source. Strings are taken to be shorter than 2^31 characters, so no
      index or counter wraps: indices are [nat], counters [Z].
    - The C++ standard library functions the code calls ([std::pow],
      [std::stod], [std::to_string]) are not code of the repository: they are
      the fields of a [Library] record every definition is parametrised by.
    - A thrown C++ exception is the [Throw] case of [result].
    - A [for] loop whose body returns is a function that finds the place
      where the body runs; the body follows in [parseToken_rec].
    - The call stack is not modelled. [parseToken] nests one call per
      operator sign of a chain and per group; what is proved of a run is
      proved of the runs for which the stack suffices. *)

From Stdlib Require Import ZArith NArith QArith Qabs List Bool Lia PeanoNat.
From Stdlib Require Import PrimFloat SpecFloat FloatOps.
From Stdlib Require Import Ascii String DecimalString.
Import ListNotations.

Local Close Scope Q_scope.
Local Open Scope nat_scope.
Local Open Scope string_scope.

(** ** Operations (main.cpp, lines 15-56) *)

Inductive Operation : Set :=
| NONE
| SUM
| MIN
| MUL
| DIV
| POW.

Definition Operation_eqb (x y : Operation) : bool :=
  match x, y with
  | NONE, NONE | SUM, SUM | MIN, MIN | MUL, MUL | DIV, DIV | POW, POW => true
  | _, _ => false
  end.

Definition getOperationFromChar (c : ascii) : Operation :=
  match c with
  | "+"%char => SUM
  | "-"%char => MIN
  | "*"%char => MUL
  | "/"%char => DIV
  | "^"%char => POW
  | _ => NONE
  end.

Definition MIN_PRIORITY : Z := 1.
Definition MAX_PRIORITY : Z := 3.

Definition getPriority (operation : Operation) : Z :=
  match operation with
  | SUM | MIN => 1
  | MUL | DIV => 2
  | POW => 3
  | NONE => 0
  end.

(** ** Exceptions and results *)

(** The two exceptions [std::stod] can throw. *)
Inductive exception : Set :=
| invalid_argument
| out_of_range.

Inductive result (A : Type) : Type :=
| Ok (a : A)
| Throw (e : exception).

Arguments Ok {A} a.
Arguments Throw {A} e.

Definition lift {A B : Type} (f : A -> B) (r : result A) : result B :=
  match r with
  | Ok a => Ok (f a)
  | Throw e => Throw e
  end.

(** A recursive computation either finishes with a [result], or runs out of
    the recursion budget ([None]); [parseToken_total] below shows that the
    budget [parseToken] starts with is never exhausted. *)
Definition run (A : Type) : Type := option (result A).

Definition ret {A : Type} (a : A) : run A := Some (Ok a).

Definition bind {A B : Type} (m : run A) (k : A -> run B) : run B :=
  match m with
  | Some (Ok a) => k a
  | Some (Throw e) => Some (Throw e)
  | None => None
  end.

Notation "x <- m ;; k" := (bind m (fun x => k))
  (at level 61, m at next level, right associativity).

(** ** The C++ standard library, as far as the calculator uses it *)

Fixpoint occurrences (c : ascii) (s : string) : nat :=
  match s with
  | EmptyString => 0
  | String c' s' => (if Ascii.eqb c' c then 1 else 0) + occurrences c s'
  end.

(** [std_pow], [std_stod] and [std_to_string] are [std::pow],
    [std::stod] and [std::to_string(double)]; a call of [std::stod] returns
    a number or throws.

    [std::to_string] formats as [printf("%f")] does: a sign, digits and a
    point, or [inf] or [nan] after the sign. That the text holds no opening
    parenthesis is the one fact the recursion of [parseToken] rests on, and
    the last field records it. It holds of the C libraries that print a NaN
    as [nan] or [-nan] (glibc, musl, the BSDs); the C standard also allows
    the style [nan(chars)], and a library that prints so is not a
    [Library]: nothing is stated here for it. *)
Record Library : Type := {
  std_pow : float -> float -> float;
  std_stod : string -> result float;
  std_to_string : float -> string;
  to_string_plain : forall value : float,
    occurrences "(" (std_to_string value) = 0
}.

(** ** Tokens (main.cpp, lines 60-109) *)

Inductive Token : Type :=
| NumberToken (value : float)
| OperationToken (operation : Operation) (a b : Token).

(** [constexpr double PI = 3.14159265358979323846] and
    [constexpr double E = 2.71828182845904523536], rounded to binary64 as the
    compiler does. *)
Definition PI : float := 0x1.921fb54442d18p+1%float.
Definition E : float := 0x1.5bf0a8b145769p+1%float.

(** [s.substr(pos)]: the suffix from [pos]. *)
Definition substr_from (s : string) (pos : nat) : string :=
  substring pos (length s - pos) s.

(** The inner loop of lines 138-155: [rest] is [expression] from index [j]
    on, [open] and [close] are the two counters. Returns the first [j] at
    which [open == close]. *)
Fixpoint matching_close (rest : string) (j : nat) (open close : Z) : option nat :=
  match rest with
  | EmptyString => None
  | String character rest' =>
      let open' := if Ascii.eqb character "(" then (open + 1)%Z else open in
      let close' :=
        if Ascii.eqb character "(" then close
        else if Ascii.eqb character ")" then (close + 1)%Z else close in
      if (open' =? close')%Z then Some j
      else matching_close rest' (S j) open' close'
  end.

(** The outer loop of lines 131-157: [rest] is [expression] from index [i]
    on. Returns the pair [(i, j)] at which the body of [if (open == close)]
    runs, if it ever does. *)
Fixpoint find_group (rest : string) (i : nat) : option (nat * nat) :=
  match rest with
  | EmptyString => None
  | String character rest' =>
      if Ascii.eqb character "(" then
        match matching_close rest' (S i) 1 0 with
        | Some j => Some (i, j)
        | None => find_group rest' (S i)
        end
      else find_group rest' (S i)
  end.

(** The loop over [i] of lines 164-192 for one [priority]: returns the index
    and the operation at which the split happens. *)
Fixpoint scan_operation (priority : Z) (expression rest : string) (i : nat)
  : option (nat * Operation) :=
  match rest with
  | EmptyString => None
  | String character rest' =>
      let operation := getOperationFromChar character in
      if Operation_eqb operation NONE then
        scan_operation priority expression rest' (S i)
      else if negb (getPriority operation =? priority)%Z then
        scan_operation priority expression rest' (S i)
      else
        let left := substring 0 i expression in
        if (left =? "") && Operation_eqb operation MIN then
          scan_operation priority expression rest' (S i)
        else Some (i, operation)
  end.

(** The loop over [priority] of lines 162-193; [levels] counts the
    iterations left. *)
Fixpoint priority_loop (expression : string) (priority : Z) (levels : nat)
  : option (nat * Operation) :=
  match levels with
  | O => None
  | S levels' =>
      match scan_operation priority expression expression 0 with
      | Some found => Some found
      | None => priority_loop expression (priority + 1) levels'
      end
  end.

Definition find_operation (expression : string) : option (nat * Operation) :=
  priority_loop expression MIN_PRIORITY
    (Z.to_nat (MAX_PRIORITY - MIN_PRIORITY + 1)).

(** [std::remove(..., ' ')] followed by [erase]. *)
Fixpoint remove_spaces (s : string) : string :=
  match s with
  | EmptyString => EmptyString
  | String c s' =>
      if Ascii.eqb c " " then remove_spaces s' else String c (remove_spaces s')
  end.

Section Calculator.

Variable lib : Library.

Fixpoint resolve (t : Token) : float :=
  match t with
  | NumberToken value => value
  | OperationToken operation a b =>
      let aValue := resolve a in
      let bValue := resolve b in
      match operation with
      | SUM => aValue + bValue
      | MIN => aValue - bValue
      | MUL => aValue * bValue
      | DIV => aValue / bValue
      | POW => std_pow lib aValue bValue
      | NONE => 0
      end%float
  end.

(** ** Parser (main.cpp, lines 113-204) *)

Definition parseNumber (token : string) : result float :=
  if token =? "pi" then Ok PI
  else if token =? "e" then Ok E
  else std_stod lib token.

(** [parseToken] recurses on strings that are not substrings of its
    argument (the parenthesised group is replaced by a printed number), so
    the embedding carries a budget: [groups] bounds the opening parentheses
    left in the string, [size] its length. *)
Fixpoint parseToken_rec (groups : nat) : nat -> string -> run Token :=
  fix split (size : nat) (expression : string) {struct size} : run Token :=
    match find_group expression 0 with
    | Some (i, j) =>
        match groups with
        | O => None
        | S groups' =>
            let subExpression := substring (i + 1) (j - i - 1) expression in
            token <- parseToken_rec groups' (length subExpression) subExpression ;;
            let newExpression :=
              substring 0 i expression
              ++ std_to_string lib (resolve token)
              ++ substr_from expression (j + 1) in
            parseToken_rec groups' (length newExpression) newExpression
        end
    | None =>
        match find_operation expression with
        | Some (i, operation) =>
            match size with
            | O => None
            | S size' =>
                let right := substr_from expression (i + 1) in
                let left := substring 0 i expression in
                a <- split size' left ;;
                b <- split size' right ;;
                ret (OperationToken operation a b)
            end
        | None => Some (lift NumberToken (parseNumber expression))
        end
    end.

Definition parseToken (expression : string) : run Token :=
  parseToken_rec (occurrences "(" expression) (length expression) expression.

(** What the last line of [parseToken] returns for a terminal string. *)
Definition literal (s : string) : run Token :=
  Some (lift NumberToken (parseNumber s)).

Definition compileExpression (expression : string) : run Token :=
  let expressionWithoutSpaces := remove_spaces expression in
  parseToken expressionWithoutSpaces.

(** Lines 252-253 of [main]: compile, then resolve. *)
Definition calculate (expression_str : string) : run float :=
  expression <- compileExpression expression_str ;;
  ret (resolve expression).

End Calculator.

(** ** The shell (main.cpp, lines 229-263)

    [std::cin] is the list of the lines still to be read. What [main] writes
    is kept as a list of [output] events, how it ends as a [status]. *)

Inductive output : Type :=
| Welcome
| Help
| Unrecognized
| Prompt
| Answer (expression_str : string) (result : float).

Inductive status : Type :=
| Returned (code : Z)
  (** [main] returns [code]. *)
| Terminated (e : exception)
  (** An exception leaves [main]: no handler exists, [std::terminate] aborts
      the process. *)
| Spinning
  (** [std::cin] is exhausted: every further [getline] fails, [action] stays
      empty and the loop prints the unrecognized-action message for ever. *)
| Unbounded
  (** The recursion budget of [parseToken] ran out (excluded by
      [parseToken_total]). *).

Section Shell.

Variable lib : Library.

(** The branch [action == "o"]: [expression_str] is the line read, [continue]
    the rest of the loop. *)
Definition operation_action (expression_str : string)
  (continue : list output * status) : list output * status :=
  match compileExpression lib expression_str with
  | Some (Ok expression) =>
      let result := resolve lib expression in
      (Prompt :: Answer expression_str result :: fst continue, snd continue)
  | Some (Throw e) => ([Prompt], Terminated e)
  | None => ([Prompt], Unbounded)
  end.

Fixpoint main_loop (cin : list string) : list output * status :=
  match cin with
  | [] => ([], Spinning)
  | action :: cin' =>
      if action =? "h" then
        let continue := main_loop cin' in (Help :: fst continue, snd continue)
      else if action =? "q" then ([], Returned 0)
      else if action =? "o" then
        match cin' with
        | [] => operation_action "" ([], Spinning)
        | expression_str :: cin'' =>
            operation_action expression_str (main_loop cin'')
        end
      else
        let continue := main_loop cin' in
        (Unrecognized :: fst continue, snd continue)
  end.

Definition main (cin : list string) : list output * status :=
  let continue := main_loop cin in (Welcome :: fst continue, snd continue).

End Shell.

(** ** The earlier parser (src/unnamed/part_000, lines 120-185)

    The file differs from main.cpp in [parseToken] only by the test on an
    empty left-hand side, which it does not have; the parenthesis loops,
    [parseNumber] and [resolve] are the same text. *)

Module Legacy.

Fixpoint scan_operation (priority : Z) (rest : string) (i : nat)
  : option (nat * Operation) :=
  match rest with
  | EmptyString => None
  | String character rest' =>
      let operation := getOperationFromChar character in
      if Operation_eqb operation NONE then
        scan_operation priority rest' (S i)
      else if negb (getPriority operation =? priority)%Z then
        scan_operation priority rest' (S i)
      else Some (i, operation)
  end.

Fixpoint priority_loop (expression : string) (priority : Z) (levels : nat)
  : option (nat * Operation) :=
  match levels with
  | O => None
  | S levels' =>
      match scan_operation priority expression 0 with
      | Some found => Some found
      | None => priority_loop expression (priority + 1) levels'
      end
  end.

Definition find_operation (expression : string) : option (nat * Operation) :=
  priority_loop expression MIN_PRIORITY
    (Z.to_nat (MAX_PRIORITY - MIN_PRIORITY + 1)).

Section Parser.

Variable lib : Library.

Fixpoint parseToken_rec (groups : nat) : nat -> string -> run Token :=
  fix split (size : nat) (expression : string) {struct size} : run Token :=
    match find_group expression 0 with
    | Some (i, j) =>
        match groups with
        | O => None
        | S groups' =>
            let subExpression := substring (i + 1) (j - i - 1) expression in
            token <- parseToken_rec groups' (length subExpression) subExpression ;;
            let newExpression :=
              substring 0 i expression
              ++ std_to_string lib (resolve lib token)
              ++ substr_from expression (j + 1) in
            parseToken_rec groups' (length newExpression) newExpression
        end
    | None =>
        match find_operation expression with
        | Some (i, operation) =>
            match size with
            | O => None
            | S size' =>
                let right := substr_from expression (i + 1) in
                let left := substring 0 i expression in
                a <- split size' left ;;
                b <- split size' right ;;
                ret (OperationToken operation a b)
            end
        | None => Some (lift NumberToken (parseNumber lib expression))
        end
    end.

Definition parseToken (expression : string) : run Token :=
  parseToken_rec (occurrences "(" expression) (length expression) expression.

End Parser.

End Legacy.

(** ** A reference model of the three library functions

    The theorems below hold for every [Library]. To evaluate the calculator
    on concrete text, [Reference] gives one: [stod] follows the grammar of
    [strtod] in the C standard (white space, a sign, then a decimal or
    hexadecimal number, [inf] or [nan]; the longest such prefix is converted
    and the rest of the string ignored) with rounding to nearest-even, and
    [to_string] the [%f] conversion of [printf]. *)

Module Reference.

Definition is_space (c : ascii) : bool :=
  let n := nat_of_ascii c in
  ((n =? 32) || ((9 <=? n) && (n <=? 13)))%nat.

Fixpoint skip_spaces (s : string) : string :=
  match s with
  | String c s' => if is_space c then skip_spaces s' else s
  | EmptyString => EmptyString
  end.

Definition digit_of (c : ascii) : option N :=
  let n := N_of_ascii c in
  if (48 <=? n)%N && (n <=? 57)%N then Some (n - 48)%N else None.

Definition hex_digit_of (c : ascii) : option N :=
  let n := N_of_ascii c in
  if (48 <=? n)%N && (n <=? 57)%N then Some (n - 48)%N
  else if (97 <=? n)%N && (n <=? 102)%N then Some (n - 87)%N
  else if (65 <=? n)%N && (n <=? 70)%N then Some (n - 55)%N
  else None.

(** The longest run of digits at the head of [s], added to [acc]; with the
    number of digits read and the rest of the string. *)
Fixpoint read_digits (digit : ascii -> option N) (base : N) (s : string)
  (acc : N) (count : nat) : N * nat * string :=
  match s with
  | String c s' =>
      match digit c with
      | Some d => read_digits digit base s' (base * acc + d)%N (S count)
      | None => (acc, count, s)
      end
  | EmptyString => (acc, count, s)
  end.

(** Digits with an optional point among them: all the digits as one number,
    how many of them follow the point, and the rest of the string. [None]
    when there is no digit. *)
Definition read_mantissa (digit : ascii -> option N) (base : N) (s : string)
  : option (N * nat * string) :=
  let '(m1, n1, r1) := read_digits digit base s 0%N 0 in
  let '(m2, n2, r2) :=
    match r1 with
    | String "." r => read_digits digit base r m1 0
    | _ => (m1, 0, r1)
    end in
  if (n1 + n2 =? 0)%nat then None else Some (m2, n2, r2).

Definition read_sign (s : string) : bool * string :=
  match s with
  | String "-" s' => (true, s')
  | String "+" s' => (false, s')
  | _ => (false, s)
  end.

(** An exponent part: the [marker] letter in either case, an optional sign
    and at least one decimal digit; 0 when the text is not of this form. *)
Definition read_exponent (marker : ascii) (s : string) : Z :=
  match s with
  | String c r =>
      if Ascii.eqb c marker
         || Ascii.eqb c (ascii_of_nat (nat_of_ascii marker - 32)) then
        let '(negative, r') := read_sign r in
        let '(e, n, _) := read_digits digit_of 10 r' 0%N 0 in
        if (n =? 0)%nat then 0%Z
        else if negative then (- Z.of_N e)%Z else Z.of_N e
      else 0%Z
  | EmptyString => 0%Z
  end.

Definition signed (negative : bool) (p : positive) : Z :=
  if negative then Zneg p else Zpos p.

(** The binary64 number nearest to [m * 10 ^ e10] (ties to even). *)
Definition round_decimal (negative : bool) (m : N) (e10 : Z) : spec_float :=
  match m with
  | N0 => S754_zero negative
  | Npos p =>
      if (0 <=? e10)%Z then
        binary_normalize prec emax (signed negative p * 10 ^ e10)%Z 0 negative
      else
        SFdiv prec emax (S754_finite negative p 0)
          (S754_finite false (Pos.pow 10 (Z.to_pos (- e10))) 0)
  end.

(** The binary64 number nearest to [m * 2 ^ e2]. *)
Definition round_binary (negative : bool) (m : N) (e2 : Z) : spec_float :=
  match m with
  | N0 => S754_zero negative
  | Npos p => binary_normalize prec emax (signed negative p) e2 negative
  end.

Definition lower (c : ascii) : ascii :=
  let n := nat_of_ascii c in
  if ((65 <=? n) && (n <=? 90))%nat then ascii_of_nat (n + 32) else c.

Fixpoint prefix_nocase (word s : string) : bool :=
  match word, s with
  | EmptyString, _ => true
  | String w word', String c s' => Ascii.eqb w (lower c) && prefix_nocase word' s'
  | String _ _, EmptyString => false
  end.

(** The number written at the head of [s] (after white space and sign):
    the rounded value, and whether the text was a non-zero finite number. *)
Definition read_number (negative : bool) (s : string)
  : option (spec_float * bool) :=
  let hexadecimal :=
    match s with
    | String "0" (String x r) =>
        if Ascii.eqb (lower x) "x" then read_mantissa hex_digit_of 16 r
        else None
    | _ => None
    end in
  match hexadecimal with
  | Some (m, n, r) =>
      Some (round_binary negative m (read_exponent "p" r - 4 * Z.of_nat n),
            negb (m =? 0)%N)
  | None =>
      match read_mantissa digit_of 10 s with
      | Some (m, n, r) =>
          Some (round_decimal negative m (read_exponent "e" r - Z.of_nat n),
                negb (m =? 0)%N)
      | None =>
          if prefix_nocase "inf" s then Some (S754_infinity negative, false)
          else if prefix_nocase "nan" s then Some (S754_nan, false)
          else None
      end
  end.

(** [strtod] reports a range error when a non-zero finite number rounds to
    an infinity, to zero or into the subnormal range. *)
Definition range_error (v : spec_float) : bool :=
  match v with
  | S754_infinity _ | S754_zero _ => true
  | S754_finite _ m _ => (Zpos m <? 2 ^ (prec - 1))%Z
  | S754_nan => false
  end.

(** [std::stod]: [invalid_argument] when no conversion could be performed,
    [out_of_range] on a range error. *)
Definition stod (str : string) : result float :=
  let '(negative, s) := read_sign (skip_spaces str) in
  match read_number negative s with
  | None => Throw invalid_argument
  | Some (v, finite) =>
      if finite && range_error v then Throw out_of_range else Ok (SF2Prim v)
  end.

Definition decimal (n : N) : string := NilZero.string_of_uint (N.to_uint n).

(** [scaled] is the magnitude in millionths: six digits after the point. *)
Definition fixed6 (negative : bool) (scaled : N) : string :=
  (if negative then "-" else "")
  ++ decimal (scaled / 1000000)
  ++ "."
  ++ substring 1 6 (decimal (1000000 + scaled mod 1000000)).

Definition round_half_even (num den : N) : N :=
  let q := (num / den)%N in
  let r := (num mod den)%N in
  if (den <? 2 * r)%N || ((2 * r =? den)%N && N.odd q) then (q + 1)%N else q.

(** [std::to_string(double)], that is [%f]: the exact value rounded to six
    decimals. The sign of a NaN is not part of [float]; it prints as [nan]. *)
Definition to_string (value : float) : string :=
  match Prim2SF value with
  | S754_zero s => fixed6 s 0
  | S754_infinity s => (if s then "-" else "") ++ "inf"
  | S754_nan => "nan"
  | S754_finite s m e =>
      fixed6 s
        (if (0 <=? e)%Z then (Npos m * 2 ^ Z.to_N e * 1000000)%N
         else round_half_even (Npos m * 1000000) (2 ^ Z.to_N (- e)))
  end.

(** The value of [y] when it is an integer. *)
Definition integer_of (y : float) : option Z :=
  match Prim2SF y with
  | S754_zero _ => Some 0%Z
  | S754_finite s m e =>
      if (0 <=? e)%Z then Some (signed s m * 2 ^ e)%Z
      else if (Zpos m mod 2 ^ (- e) =? 0)%Z then Some (signed s m / 2 ^ (- e))%Z
      else None
  | _ => None
  end.

Fixpoint power (x : float) (n : nat) : float :=
  match n with
  | O => 1%float
  | S n' => (x * power x n')%float
  end.

(** [std::pow] is outside this model. The field of the record needs a
    function: integer powers by repeated multiplication, [nan] elsewhere.
    Nothing is concluded about the calculator from the [nan]. *)
Definition pow (x y : float) : float :=
  match integer_of y with
  | Some n =>
      if (0 <=? n)%Z then power x (Z.to_nat n)
      else (1 / power x (Z.to_nat (- n)))%float
  | None => nan
  end.

End Reference.

(** * The vocabulary of the specification *)

(** The characters at which the scan for [priority] may split
    [expression]: those whose operation has this priority, except a minus
    sign in the first place. *)
Definition splits_at (expression : string) (priority : Z) (i : nat) : Prop :=
  exists c, get i expression = Some c
    /\ getPriority (getOperationFromChar c) = priority
    /\ ~ (i = 0 /\ c = "-"%char).

(** The characters the specification calls matching at a level: those whose
    operation has this priority. *)
Definition matches (expression : string) (priority : Z) (i : nat) : Prop :=
  exists c, get i expression = Some c
    /\ getPriority (getOperationFromChar c) = priority.

(** ** The matching parenthesis

    The nesting counter of the specification: [depth s i k] is the number
    of opening minus the number of closing parentheses among the characters
    [i .. i + k] of [s]. *)

Definition depth (s : string) (i k : nat) : Z :=
  Z.of_nat (occurrences "(" (substring i (S k) s))
  - Z.of_nat (occurrences ")" (substring i (S k) s)).

(** [i] is the place of the first opening parenthesis of [s]. *)
Definition first_open (s : string) (i : nat) : Prop :=
  get i s = Some "("%char /\ forall k, k < i -> get k s <> Some "("%char.

(** [j] is where the counter started at [i] first returns to zero. *)
Definition closes (s : string) (i j : nat) : Prop :=
  i < j /\ j < length s /\ depth s i (j - i) = 0%Z
  /\ forall k, k < j - i -> depth s i k <> 0%Z.

(** ** Operands, literals and exact values *)

Fixpoint all_chars (p : ascii -> bool) (s : string) : bool :=
  match s with
  | EmptyString => true
  | String c s' => p c && all_chars p s'
  end.

(** A character of an operand: no operator sign and no opening
    parenthesis. *)
Definition operand_char (c : ascii) : bool :=
  Operation_eqb (getOperationFromChar c) NONE && negb (Ascii.eqb c "(").

Definition operand (s : string) : bool := all_chars operand_char s.

Definition is_digit (c : ascii) : bool :=
  let n := nat_of_ascii c in ((48 <=? n) && (n <=? 57))%nat.

Definition unsigned_decimal (s : string) : bool :=
  all_chars (fun c => is_digit c || Ascii.eqb c ".") s
  && negb (all_chars (fun c => negb (is_digit c)) s)
  && (occurrences "." s <=? 1)%nat.

(** A decimal literal: digits with at most one point among them, at least
    one digit, and possibly a minus sign in front. *)
Definition decimal_literal (s : string) : bool :=
  match s with
  | String "-" s' => unsigned_decimal s'
  | _ => unsigned_decimal s
  end.

(** The rational number a finite [float] stands for (0 for the others). *)
Definition exact (f : float) : Q :=
  match Prim2SF f with
  | S754_finite s m e =>
      let magnitude :=
        if (0 <=? e)%Z then inject_Z (Zpos m * 2 ^ e)
        else Qmake (Zpos m) (Pos.pow 2 (Z.to_pos (- e))) in
      if s then Qopp magnitude else magnitude
  | _ => 0%Q
  end.

(** The number a decimal literal denotes: its digits, read as one number
    in base ten, divided by ten to the number of characters behind the
    point, and negated behind a minus sign. *)
Fixpoint digits_number (acc : Z) (s : string) : Z :=
  match s with
  | EmptyString => acc
  | String c r =>
      if is_digit c then
        digits_number (10 * acc + Z.of_nat (nat_of_ascii c - 48)) r
      else digits_number acc r
  end.

Fixpoint decimals (s : string) : nat :=
  match s with
  | EmptyString => 0
  | String c r => if Ascii.eqb c "." then length r else decimals r
  end.

Definition magnitude (s : string) : Q :=
  Qmake (digits_number 0 s) (Z.to_pos (10 ^ Z.of_nat (decimals s))).


Definition finite (d : float) : bool :=
  match Prim2SF d with
  | S754_zero _ | S754_finite _ _ _ => true
  | _ => false
  end.



(** No character of [s] is one at which a level from 1 to [below - 1] may
    split. *)
Definition none_looser (below : Z) (s : string) : bool :=
  all_chars (fun c =>
    let q := getPriority (getOperationFromChar c) in
    (q =? 0)%Z || (below <=? q)%Z) s.

(** The difference of the two counters of the inner parenthesis loop after
    [k] characters of [rest], started at [open] and [close]. *)
Definition counter (open close : Z) (rest : string) (k : nat) : Z :=
  (open + Z.of_nat (occurrences "(" (substring 0 k rest))
   - (close + Z.of_nat (occurrences ")" (substring 0 k rest))))%Z.

(** ** The operands of an expression without groups *)

Definition is_operator (c : ascii) : bool :=
  negb (Operation_eqb (getOperationFromChar c) NONE).

(** Whether the character [c] stands between two operands, when it is read
    in a place where a minus sign opens an operand ([sign]) or does not. *)
Definition separates (sign : bool) (c : ascii) : bool :=
  is_operator c && negb (sign && Ascii.eqb c "-").

(** The operands of [s] from left to right: the texts between its operator
    signs. A minus sign is no operator sign but the first character of an
    operand at the start of the text and directly after an operator sign
    of level 1, [+] or [-]; [sign] tells whether the text starts in such a
    place. *)
Fixpoint operand_texts_from (sign : bool) (s : string) : list string :=
  match s with
  | EmptyString => [""]
  | String c r =>
      if separates sign c then
        "" :: operand_texts_from
                (getPriority (getOperationFromChar c) =? 1)%Z r
      else
        match operand_texts_from false r with
        | p :: ps => String c p :: ps
        | [] => [String c ""]
        end
  end.

Definition operand_texts (s : string) : list string :=
  operand_texts_from true s.

(** Whether the character at [i] stands between two operands of [s]. *)
Fixpoint separates_at (sign : bool) (s : string) (i : nat) : bool :=
  match s with
  | EmptyString => false
  | String c r =>
      match i with
      | O => separates sign c
      | S i' =>
          separates_at
            (separates sign c
             && (getPriority (getOperationFromChar c) =? 1)%Z) r i'
      end
  end.

(** The exception of the first result that is one. *)
Fixpoint first_throw {A : Type} (rs : list (result A)) : option exception :=
  match rs with
  | [] => None
  | Ok _ :: rs' => first_throw rs'
  | Throw e :: _ => Some e
  end.

(** The exception with which [parseNumber] rejects the leftmost operand of
    [s] that it rejects. *)
Definition rejected (lib : Library) (s : string) : option exception :=
  first_throw (map (parseNumber lib) (operand_texts s)).

(** ** The calls of [parseToken]

    [calls lib s s']: a call of [parseToken] on [s] calls [parseToken] on
    [s'] (main.cpp, lines 151, 154, 187 and 188). The call on the text
    that replaces a group is made when the group has compiled, the call on
    the right operand when the left one has. *)
Inductive calls (lib : Library) (s : string) : string -> Prop :=
| calls_group (i j : nat) :
    find_group s 0 = Some (i, j) ->
    calls lib s (substring (i + 1) (j - i - 1) s)
| calls_folded (i j : nat) (token : Token) :
    find_group s 0 = Some (i, j) ->
    parseToken lib (substring (i + 1) (j - i - 1) s) = Some (Ok token) ->
    calls lib s (substring 0 i s
                 ++ std_to_string lib (resolve lib token)
                 ++ substr_from s (j + 1))
| calls_left (i : nat) (operation : Operation) :
    find_group s 0 = None ->
    find_operation s = Some (i, operation) ->
    calls lib s (substring 0 i s)
| calls_right (i : nat) (operation : Operation) (a : Token) :
    find_group s 0 = None ->
    find_operation s = Some (i, operation) ->
    parseToken lib (substring 0 i s) = Some (Ok a) ->
    calls lib s (substr_from s (i + 1)).

(** [reaches lib s s']: the call of [parseToken] on [s] leads, through
    nested calls, to a call on [s']. *)
Inductive reaches (lib : Library) (s : string) : string -> Prop :=
| reaches_self : reaches lib s s
| reaches_call (s' s'' : string) :
    calls lib s s' -> reaches lib s' s'' -> reaches lib s s''.

(** ** Trees and the shell *)

(** The operations at the operation nodes of a tree. *)
Fixpoint operations (t : Token) : list Operation :=
  match t with
  | NumberToken _ => []
  | OperationToken operation a b => operation :: operations a ++ operations b
  end.

(** Every operation node binds no tighter than the nodes below it, and
    strictly looser than the nodes of its left operand. *)
Fixpoint ordered (t : Token) : Prop :=
  match t with
  | NumberToken _ => True
  | OperationToken operation a b =>
      (forall o, In o (operations a) ->
                 (getPriority operation < getPriority o)%Z)
      /\ (forall o, In o (operations b) ->
                    (getPriority operation <= getPriority o)%Z)
      /\ ordered a /\ ordered b
  end.

(** What the loop of [main] writes for a line that is neither [o] nor
    [q]. *)
Definition reply (action : string) : output :=
  if action =? "h" then Help else Unrecognized.

(** The lines of [cin] that the loop of [main] reads as expressions as long
    as no compilation throws: the line after each action [o] (the empty
    text when the input ends there), up to the action [q]. *)
Fixpoint expressions (cin : list string) : list string :=
  match cin with
  | [] => []
  | action :: cin' =>
      if action =? "q" then []
      else if action =? "o" then
        match cin' with
        | [] => [""]
        | expression_str :: cin'' => expression_str :: expressions cin''
        end
      else expressions cin'
  end.

(** What a run of the loop over the lines [cin], with the expressions [es]
    among them, guarantees about what was written and how it ended. *)
Definition outcome (lib : Library) (cin es : list string)
  (run : list output * status) : Prop :=
  (forall s v, In (Answer s v) (fst run) ->
     In s es
     /\ exists t, compileExpression lib s = Some (Ok t) /\ v = resolve lib t)
  /\ (forall code, snd run = Returned code ->
        code = 0%Z /\ In "q" cin
        /\ forall s, In s es -> exists t, compileExpression lib s = Some (Ok t))
  /\ (forall e, snd run = Terminated e ->
        In "o" cin
        /\ exists before s after,
             es = (before ++ s :: after)%list
             /\ (forall x, In x before ->
                   exists t, compileExpression lib x = Some (Ok t))
             /\ compileExpression lib s = Some (Throw e)).

(** * Lemmas *)

(** ** Strings: counting, cutting and joining *)

Lemma occurrences_app (c : ascii) (s1 s2 : string) :
  occurrences c (s1 ++ s2) = occurrences c s1 + occurrences c s2.
Proof.
  induction s1 as [|c1 s1 IH]; simpl; [reflexivity|].
  rewrite IH. lia.
Qed.

Lemma occurrences_substring_le (c : ascii) (s : string) :
  forall n m, occurrences c (substring n m s) <= occurrences c s.
Proof.
  induction s as [|c1 s IH]; intros n m.
  - destruct n, m; simpl; lia.
  - destruct n as [|n].
    + destruct m as [|m]; simpl; [lia|].
      specialize (IH 0 m). lia.
    + simpl. specialize (IH n m). lia.
Qed.

Lemma length_prefix (s : string) :
  forall i, i <= length s -> length (substring 0 i s) = i.
Proof.
  induction s as [|c s IH]; intros [|i] Hi; simpl in *; try lia.
  rewrite IH; lia.
Qed.

Lemma length_suffix (s : string) :
  forall i, length (substr_from s i) = length s - i.
Proof.
  unfold substr_from.
  induction s as [|c s IH]; intros [|i]; simpl; try reflexivity.
  - f_equal. specialize (IH 0). simpl in IH. rewrite Nat.sub_0_r in IH. exact IH.
  - apply IH.
Qed.

Lemma get_lt (s : string) :
  forall i c, get i s = Some c -> i < length s.
Proof.
  induction s as [|c1 s IH]; intros [|i] c H; simpl in *; try discriminate; try lia.
  apply IH in H. lia.
Qed.

(** ** The reference library is a [Library] *)

Lemma string_of_uint_plain (d : Decimal.uint) :
  occurrences "(" (NilEmpty.string_of_uint d) = 0.
Proof.
  induction d; simpl; auto.
Qed.

Lemma decimal_plain (n : N) : occurrences "(" (Reference.decimal n) = 0.
Proof.
  unfold Reference.decimal, NilZero.string_of_uint.
  destruct (N.to_uint n); try apply string_of_uint_plain; reflexivity.
Qed.

Lemma fixed6_plain (negative : bool) (scaled : N) :
  occurrences "(" (Reference.fixed6 negative scaled) = 0.
Proof.
  unfold Reference.fixed6.
  rewrite !occurrences_app, decimal_plain.
  pose proof (occurrences_substring_le "("
    (Reference.decimal (1000000 + scaled mod 1000000)) 1 6) as H.
  rewrite decimal_plain in H.
  assert (Hsign : occurrences "(" (if negative then "-" else "") = 0)
    by (destruct negative; reflexivity).
  assert (Hpoint : occurrences "(" "." = 0) by reflexivity.
  lia.
Qed.

Lemma reference_to_string_plain (value : float) :
  occurrences "(" (Reference.to_string value) = 0.
Proof.
  unfold Reference.to_string.
  destruct (Prim2SF value) as [s|s| |s m e]; try apply fixed6_plain.
  - destruct s; reflexivity.
  - reflexivity.
Qed.

(** The library the closed statements below are evaluated in. *)
Definition reference : Library := {|
  std_pow := Reference.pow;
  std_stod := Reference.stod;
  std_to_string := Reference.to_string;
  to_string_plain := reference_to_string_plain
|}.

(** The two constants of main.cpp are the binary64 numbers nearest to
    their decimal texts. *)
Lemma constants_rounded :
  Reference.stod "3.14159265358979323846" = Ok PI
  /\ Reference.stod "2.71828182845904523536" = Ok E.
Proof. split; vm_compute; reflexivity. Qed.

(** ** More on cutting strings *)

Lemma substring_0_0 (s : string) : substring 0 0 s = "".
Proof. destruct s; reflexivity. Qed.

Lemma substr_from_0 (s : string) : substr_from s 0 = s.
Proof.
  unfold substr_from. rewrite Nat.sub_0_r.
  induction s as [|c s IH]; simpl; [reflexivity|]. f_equal. exact IH.
Qed.

Lemma substr_from_cons (c : ascii) (s : string) (n : nat) :
  substr_from (String c s) (S n) = substr_from s n.
Proof. reflexivity. Qed.

(** The suffix from [n] is the [m] characters from [n] and the suffix from
    [n + m]. *)
Lemma suffix_split (s : string) :
  forall n m, substr_from s n = substring n m s ++ substr_from s (n + m).
Proof.
  induction s as [|c s IH]; intros n m.
  - destruct n, m; reflexivity.
  - destruct n as [|n].
    + destruct m as [|m].
      * reflexivity.
      * rewrite substr_from_0. simpl. f_equal.
        rewrite substr_from_cons.
        specialize (IH 0 m). rewrite substr_from_0 in IH. exact IH.
    + simpl Nat.add. rewrite !substr_from_cons. simpl. apply IH.
Qed.

Lemma prefix_suffix (s : string) (i : nat) :
  s = substring 0 i s ++ substr_from s i.
Proof.
  pose proof (suffix_split s 0 i) as H.
  rewrite substr_from_0 in H. exact H.
Qed.

Lemma suffix_head (s : string) :
  forall i c, get i s = Some c -> substr_from s i = String c (substr_from s (S i)).
Proof.
  induction s as [|c1 s IH]; intros [|i] c H; simpl in *; try discriminate.
  - injection H as ->. rewrite substr_from_0, substr_from_cons, substr_from_0.
    reflexivity.
  - rewrite !substr_from_cons. apply IH. exact H.
Qed.

Lemma occurrences_suffix_le (c : ascii) (s : string) (n : nat) :
  occurrences c (substr_from s n) <= occurrences c s.
Proof.
  unfold substr_from. apply occurrences_substring_le.
Qed.

Lemma length_append (s1 s2 : string) :
  length (s1 ++ s2) = length s1 + length s2.
Proof.
  induction s1 as [|c s1 IH]; simpl; [reflexivity|]. now rewrite IH.
Qed.

Lemma prefix_of_append (pre rest : string) :
  substring 0 (length pre) (pre ++ rest) = pre.
Proof.
  induction pre as [|c pre IH]; simpl.
  - destruct rest; reflexivity.
  - f_equal. exact IH.
Qed.

Lemma suffix_of_append (pre rest : string) :
  substr_from (pre ++ rest) (length pre) = rest.
Proof.
  induction pre as [|c pre IH]; simpl.
  - apply substr_from_0.
  - rewrite substr_from_cons. exact IH.
Qed.

Lemma get_append (pre rest : string) (k : nat) :
  get (length pre + k) (pre ++ rest) = get k rest.
Proof.
  induction pre as [|c pre IH]; simpl; [reflexivity|]. exact IH.
Qed.

Lemma append_assoc (s1 s2 s3 : string) : (s1 ++ s2) ++ s3 = s1 ++ (s2 ++ s3).
Proof.
  induction s1 as [|c s1 IH]; simpl; [reflexivity|]. now rewrite IH.
Qed.

(** ** Where the loops stop *)

Lemma matching_close_bounds (rest : string) :
  forall j open close j',
    matching_close rest j open close = Some j' ->
    j <= j' < j + length rest.
Proof.
  induction rest as [|character rest IH]; intros j open close j' H;
    simpl in H; [discriminate|].
  destruct (Z.eqb _ _).
  - injection H as <-. simpl. lia.
  - apply IH in H. simpl. lia.
Qed.

Lemma find_group_bounds (rest : string) :
  forall i0 i j,
    find_group rest i0 = Some (i, j) ->
    i0 <= i /\ i < j /\ j < i0 + length rest /\ get (i - i0) rest = Some "("%char.
Proof.
  induction rest as [|character rest IH]; intros i0 i j H; simpl in H;
    [discriminate|].
  assert (Hrec : find_group rest (S i0) = Some (i, j) ->
                 i0 <= i /\ i < j /\ j < i0 + length (String character rest)
                 /\ get (i - i0) (String character rest) = Some "("%char).
  { intros H'. apply IH in H'. destruct H' as (H1 & H2 & H3 & H4).
    simpl. repeat split; try lia.
    replace (i - i0) with (S (i - S i0)) by lia. exact H4. }
  destruct (Ascii.eqb character "(") eqn:Hc; [|auto].
  destruct (matching_close rest (S i0) 1 0) as [j'|] eqn:Hm; [|auto].
  injection H as <- <-. apply matching_close_bounds in Hm.
  apply Ascii.eqb_eq in Hc. subst character.
  rewrite Nat.sub_diag. simpl. repeat split; lia.
Qed.

(** The group that is cut out and the text around it hold fewer opening
    parentheses than the whole. *)
Lemma find_group_occurrences (s : string) (i j : nat) :
  find_group s 0 = Some (i, j) ->
  occurrences "(" (substring 0 i s)
  + occurrences "(" (substring (i + 1) (j - i - 1) s)
  + occurrences "(" (substr_from s (j + 1)) < occurrences "(" s.
Proof.
  intros H. apply find_group_bounds in H. destruct H as (_ & Hij & Hj & Hget).
  rewrite Nat.sub_0_r in Hget.
  rewrite (prefix_suffix s i) at 4.
  rewrite (suffix_head s i _ Hget).
  rewrite (suffix_split s (S i) (j - i - 1)).
  replace (S i + (j - i - 1)) with j by lia.
  rewrite (suffix_split s j 1).
  rewrite occurrences_app. simpl. rewrite !occurrences_app.
  replace (i + 1) with (S i) by lia. lia.
Qed.

Lemma scan_operation_bounds (priority : Z) (expression rest : string) :
  forall i0 i operation,
    scan_operation priority expression rest i0 = Some (i, operation) ->
    i0 <= i < i0 + length rest.
Proof.
  induction rest as [|character rest IH]; intros i0 i operation H;
    simpl in H; [discriminate|].
  assert (Hrec : scan_operation priority expression rest (S i0)
                 = Some (i, operation) ->
                 i0 <= i < i0 + length (String character rest)).
  { intros H'. apply IH in H'. simpl. lia. }
  destruct (Operation_eqb _ NONE); [auto|].
  destruct (negb _); [auto|].
  destruct (_ && _); [auto|].
  injection H as <- <-. simpl. lia.
Qed.

Lemma priority_loop_bounds (expression : string) (levels : nat) :
  forall priority i operation,
    priority_loop expression priority levels = Some (i, operation) ->
    i < length expression.
Proof.
  induction levels as [|levels IH]; intros priority i operation H;
    simpl in H; [discriminate|].
  destruct (scan_operation priority expression expression 0)
    as [[i' operation']|] eqn:Hs.
  - injection H as <- <-. apply scan_operation_bounds in Hs. lia.
  - eapply IH. exact H.
Qed.

Lemma find_operation_bounds (expression : string) (i : nat) (operation : Operation) :
  find_operation expression = Some (i, operation) -> i < length expression.
Proof. apply priority_loop_bounds. Qed.

(** ** The budget of [parseToken] is enough *)

Lemma bind_ext {A B : Type} (m : run A) (k k' : A -> run B) :
  (forall a, k a = k' a) -> bind m k = bind m k'.
Proof.
  intros H. destruct m as [[a|e]|]; simpl; auto.
Qed.

Lemma bind_total {A B : Type} (m : run A) (k : A -> run B) :
  m <> None -> (forall a, k a <> None) -> bind m k <> None.
Proof.
  intros Hm Hk. destruct m as [[a|e]|]; simpl; auto. discriminate.
Qed.

Section Budget.

Variable lib : Library.

Lemma parseToken_rec_eq (groups size : nat) (expression : string) :
  parseToken_rec lib groups size expression =
  match find_group expression 0 with
  | Some (i, j) =>
      match groups with
      | O => None
      | S groups' =>
          let subExpression := substring (i + 1) (j - i - 1) expression in
          token <- parseToken_rec lib groups' (length subExpression) subExpression ;;
          let newExpression :=
            substring 0 i expression
            ++ std_to_string lib (resolve lib token)
            ++ substr_from expression (j + 1) in
          parseToken_rec lib groups' (length newExpression) newExpression
      end
  | None =>
      match find_operation expression with
      | Some (i, operation) =>
          match size with
          | O => None
          | S size' =>
              a <- parseToken_rec lib groups size' (substring 0 i expression) ;;
              b <- parseToken_rec lib groups size' (substr_from expression (i + 1)) ;;
              ret (OperationToken operation a b)
          end
      | None => Some (lift NumberToken (parseNumber lib expression))
      end
  end.
Proof. destruct groups, size; reflexivity. Qed.

(** The text that replaces a group holds fewer opening parentheses. *)
Lemma newExpression_occurrences (s : string) (i j : nat) (value : float) :
  find_group s 0 = Some (i, j) ->
  occurrences "("
    (substring 0 i s ++ std_to_string lib value ++ substr_from s (j + 1))
  < occurrences "(" s.
Proof.
  intros H. apply find_group_occurrences in H.
  rewrite !occurrences_app, to_string_plain. lia.
Qed.

Lemma parseToken_rec_stable :
  forall groups size expression groups' size',
    occurrences "(" expression <= groups -> length expression <= size ->
    occurrences "(" expression <= groups' -> length expression <= size' ->
    parseToken_rec lib groups size expression
    = parseToken_rec lib groups' size' expression.
Proof.
  induction groups as [groups IHg] using lt_wf_ind.
  induction size as [size IHs] using lt_wf_ind.
  intros s groups' size' Hg Hs Hg' Hs'.
  rewrite (parseToken_rec_eq groups size s), (parseToken_rec_eq groups' size' s).
  destruct (find_group s 0) as [[i j]|] eqn:Hgroup.
  - pose proof (find_group_occurrences s i j Hgroup) as Hocc.
    destruct groups as [|g]; [lia|]. destruct groups' as [|g']; [lia|].
    cbv zeta.
    rewrite (IHg g (Nat.lt_succ_diag_r g) _ _ g'
               (length (substring (i + 1) (j - i - 1) s))) by lia.
    apply bind_ext. intros token.
    pose proof (newExpression_occurrences s i j (resolve lib token) Hgroup).
    apply IHg; lia.
  - destruct (find_operation s) as [[i operation]|] eqn:Hop; [|reflexivity].
    pose proof (find_operation_bounds s i operation Hop) as Hi.
    destruct size as [|n]; [lia|]. destruct size' as [|n']; [lia|].
    pose proof (occurrences_substring_le "(" s 0 i).
    pose proof (occurrences_suffix_le "(" s (i + 1)).
    pose proof (length_prefix s i ltac:(lia)).
    pose proof (length_suffix s (i + 1)).
    rewrite (IHs n (Nat.lt_succ_diag_r n) (substring 0 i s) groups' n') by lia.
    rewrite (IHs n (Nat.lt_succ_diag_r n) (substr_from s (i + 1)) groups' n') by lia.
    reflexivity.
Qed.

Lemma parseToken_rec_total :
  forall groups size expression,
    occurrences "(" expression <= groups -> length expression <= size ->
    parseToken_rec lib groups size expression <> None.
Proof.
  induction groups as [groups IHg] using lt_wf_ind.
  induction size as [size IHs] using lt_wf_ind.
  intros s Hg Hs.
  rewrite (parseToken_rec_eq groups size s).
  destruct (find_group s 0) as [[i j]|] eqn:Hgroup.
  - pose proof (find_group_occurrences s i j Hgroup) as Hocc.
    destruct groups as [|g]; [lia|]. cbv zeta.
    apply bind_total.
    + apply IHg; lia.
    + intros token.
      pose proof (newExpression_occurrences s i j (resolve lib token) Hgroup).
      apply IHg; lia.
  - destruct (find_operation s) as [[i operation]|] eqn:Hop; [|discriminate].
    pose proof (find_operation_bounds s i operation Hop) as Hi.
    destruct size as [|n]; [lia|].
    pose proof (occurrences_substring_le "(" s 0 i).
    pose proof (occurrences_suffix_le "(" s (i + 1)).
    pose proof (length_prefix s i ltac:(lia)).
    pose proof (length_suffix s (i + 1)).
    apply bind_total; [apply IHs; lia|]. intros a.
    apply bind_total; [apply IHs; lia|]. intros b. discriminate.
Qed.

(** [parseToken] always finishes: with a tree or with an exception. *)
Lemma parseToken_total (expression : string) :
  exists r : result Token, parseToken lib expression = Some r.
Proof.
  destruct (parseToken lib expression) as [r|] eqn:H; [eauto|].
  exfalso. revert H. apply parseToken_rec_total; lia.
Qed.

(** The recursion of [parseToken], as the source writes it. *)
Lemma parseToken_unfold (expression : string) :
  parseToken lib expression =
  match find_group expression 0 with
  | Some (i, j) =>
      let subExpression := substring (i + 1) (j - i - 1) expression in
      token <- parseToken lib subExpression ;;
      let newExpression :=
        substring 0 i expression
        ++ std_to_string lib (resolve lib token)
        ++ substr_from expression (j + 1) in
      parseToken lib newExpression
  | None =>
      match find_operation expression with
      | Some (i, operation) =>
          let right := substr_from expression (i + 1) in
          let left := substring 0 i expression in
          a <- parseToken lib left ;;
          b <- parseToken lib right ;;
          ret (OperationToken operation a b)
      | None => Some (lift NumberToken (parseNumber lib expression))
      end
  end.
Proof.
  unfold parseToken at 1. rewrite parseToken_rec_eq.
  destruct (find_group expression 0) as [[i j]|] eqn:Hgroup.
  - pose proof (find_group_occurrences expression i j Hgroup) as Hocc.
    destruct (occurrences "(" expression) as [|g] eqn:Hg; [lia|]. cbv zeta.
    unfold parseToken.
    rewrite (parseToken_rec_stable g _ (substring (i + 1) (j - i - 1) expression)
               (occurrences "(" (substring (i + 1) (j - i - 1) expression))
               (length (substring (i + 1) (j - i - 1) expression))) by lia.
    apply bind_ext. intros token.
    pose proof (newExpression_occurrences expression i j (resolve lib token) Hgroup).
    apply parseToken_rec_stable; lia.
  - destruct (find_operation expression) as [[i operation]|] eqn:Hop;
      [|reflexivity].
    pose proof (find_operation_bounds expression i operation Hop) as Hi.
    destruct (length expression) as [|n] eqn:Hn; [lia|]. cbv zeta.
    pose proof (occurrences_substring_le "(" expression 0 i).
    pose proof (occurrences_suffix_le "(" expression (i + 1)).
    pose proof (length_prefix expression i ltac:(lia)).
    pose proof (length_suffix expression (i + 1)).
    unfold parseToken.
    rewrite (parseToken_rec_stable _ n (substring 0 i expression)
               (occurrences "(" (substring 0 i expression))
               (length (substring 0 i expression))) by lia.
    rewrite (parseToken_rec_stable _ n (substr_from expression (i + 1))
               (occurrences "(" (substr_from expression (i + 1)))
               (length (substr_from expression (i + 1)))) by lia.
    reflexivity.
Qed.

End Budget.

(** ** What the loops find *)

Lemma getOperationFromChar_MIN (c : ascii) :
  getOperationFromChar c = MIN <-> c = "-"%char.
Proof.
  destruct c as [[] [] [] [] [] [] [] []]; split; intros H;
    try reflexivity; discriminate.
Qed.

Lemma Operation_eqb_eq (x y : Operation) : Operation_eqb x y = true <-> x = y.
Proof. destruct x, y; split; intros H; try reflexivity; discriminate. Qed.

Lemma length_zero_iff (s : string) : (s =? "") = true <-> length s = 0.
Proof. destruct s; simpl; split; intros H; try reflexivity; discriminate. Qed.

Lemma scan_operation_spec (priority : Z) :
  (1 <= priority)%Z ->
  forall rest pre,
    match scan_operation priority (pre ++ rest) rest (length pre) with
    | Some (i, operation) =>
        length pre <= i
        /\ (exists c, get i (pre ++ rest) = Some c
                      /\ operation = getOperationFromChar c)
        /\ splits_at (pre ++ rest) priority i
        /\ forall k, length pre <= k < i -> ~ splits_at (pre ++ rest) priority k
    | None => forall k, length pre <= k -> ~ splits_at (pre ++ rest) priority k
    end.
Proof.
  intros Hp. induction rest as [|c rest IH]; intros pre.
  - simpl. intros k Hk (c & Hget & _). apply get_lt in Hget.
    rewrite length_append in Hget. simpl in Hget. lia.
  - assert (Hc : get (length pre) (pre ++ String c rest) = Some c).
    { rewrite <- (Nat.add_0_r (length pre)) at 1. apply get_append. }
    assert (Hnext : ~ splits_at (pre ++ String c rest) priority (length pre) ->
      match scan_operation priority (pre ++ String c rest) rest (S (length pre)) with
      | Some (i, operation) =>
          length pre <= i
          /\ (exists c0, get i (pre ++ String c rest) = Some c0
                         /\ operation = getOperationFromChar c0)
          /\ splits_at (pre ++ String c rest) priority i
          /\ forall k, length pre <= k < i ->
                       ~ splits_at (pre ++ String c rest) priority k
      | None => forall k, length pre <= k ->
                          ~ splits_at (pre ++ String c rest) priority k
      end).
    { intros Hnot. specialize (IH (pre ++ String c "")).
      rewrite append_assoc in IH. simpl in IH.
      rewrite length_append in IH. simpl in IH.
      rewrite Nat.add_1_r in IH.
      destruct (scan_operation priority (pre ++ String c rest) rest
                  (S (length pre))) as [[i operation]|].
      - destruct IH as (H1 & H2 & H3 & H4). repeat split; auto; try lia.
        intros k Hk. destruct (Nat.eq_dec k (length pre)) as [->|Hne]; auto.
        apply H4. lia.
      - intros k Hk. destruct (Nat.eq_dec k (length pre)) as [->|Hne]; auto.
        apply IH. lia. }
    simpl scan_operation.
    destruct (Operation_eqb (getOperationFromChar c) NONE) eqn:Hnone.
    { apply Hnext. intros (c' & Hget & Hprio & _).
      rewrite Hc in Hget. injection Hget as <-.
      apply Operation_eqb_eq in Hnone. rewrite Hnone in Hprio. simpl in Hprio. lia. }
    destruct (getPriority (getOperationFromChar c) =? priority)%Z eqn:Hprio;
      simpl negb; cbv iota.
    2:{ apply Hnext. intros (c' & Hget & Hprio' & _).
        rewrite Hc in Hget. injection Hget as <-.
        apply Z.eqb_neq in Hprio. contradiction. }
    apply Z.eqb_eq in Hprio.
    rewrite prefix_of_append.
    destruct ((pre =? "") && Operation_eqb (getOperationFromChar c) MIN)
      eqn:Hskip.
    { apply Hnext. intros (c' & Hget & _ & Hnot).
      rewrite Hc in Hget. injection Hget as <-.
      apply andb_true_iff in Hskip. destruct Hskip as [Hpre Hmin].
      apply length_zero_iff in Hpre. apply Operation_eqb_eq in Hmin.
      apply getOperationFromChar_MIN in Hmin. auto. }
    repeat split; auto.
    + exists c. auto.
    + exists c. repeat split; auto. intros [Hzero Hminus].
      apply andb_false_iff in Hskip. destruct Hskip as [Hpre | Hmin].
      * apply length_zero_iff in Hzero. congruence.
      * apply getOperationFromChar_MIN in Hminus.
        apply Operation_eqb_eq in Hminus. congruence.
    + intros k Hk. lia.
Qed.

Lemma find_operation_spec (expression : string) :
  match find_operation expression with
  | Some (i, operation) =>
      exists priority c,
        (1 <= priority <= 3)%Z
        /\ get i expression = Some c
        /\ operation = getOperationFromChar c
        /\ splits_at expression priority i
        /\ (forall k, k < i -> ~ splits_at expression priority k)
        /\ (forall q k, (1 <= q < priority)%Z -> ~ splits_at expression q k)
  | None => forall q k, (1 <= q <= 3)%Z -> ~ splits_at expression q k
  end.
Proof.
  unfold find_operation, MIN_PRIORITY, MAX_PRIORITY. simpl.
  pose proof (scan_operation_spec 1 ltac:(lia) expression "") as H1.
  pose proof (scan_operation_spec 2 ltac:(lia) expression "") as H2.
  pose proof (scan_operation_spec 3 ltac:(lia) expression "") as H3.
  simpl in H1, H2, H3.
  destruct (scan_operation 1 expression expression 0) as [[i operation]|].
  { destruct H1 as (_ & (c & Hc & Hop) & Hs & Hfirst).
    exists 1%Z, c. repeat split; auto; try lia.
    intros k Hk. apply Hfirst. lia. }
  destruct (scan_operation 2 expression expression 0) as [[i operation]|].
  { destruct H2 as (_ & (c & Hc & Hop) & Hs & Hfirst).
    exists 2%Z, c. repeat split; auto; try lia.
    - intros k Hk. apply Hfirst. lia.
    - intros q k Hq. replace q with 1%Z by lia. apply H1. lia. }
  destruct (scan_operation 3 expression expression 0) as [[i operation]|].
  { destruct H3 as (_ & (c & Hc & Hop) & Hs & Hfirst).
    exists 3%Z, c. repeat split; auto; try lia.
    - intros k Hk. apply Hfirst. lia.
    - intros q k Hq. assert (q = 1 \/ q = 2)%Z as [-> | ->] by lia.
      + apply H1. lia.
      + apply H2. lia. }
  intros q k Hq. assert (q = 1 \/ q = 2 \/ q = 3)%Z as [-> | [-> | ->]] by lia;
    [apply H1 | apply H2 | apply H3]; lia.
Qed.

(** The first place, at the first level that has one, is where
    [find_operation] stops. *)
Lemma find_operation_first (expression : string) (priority : Z) (i : nat) (c : ascii) :
  (1 <= priority <= 3)%Z ->
  get i expression = Some c ->
  splits_at expression priority i ->
  (forall k, k < i -> ~ splits_at expression priority k) ->
  (forall q k, (1 <= q < priority)%Z -> ~ splits_at expression q k) ->
  find_operation expression = Some (i, getOperationFromChar c).
Proof.
  intros Hp Hc Hs Hfirst Hlevel.
  pose proof (find_operation_spec expression) as H.
  destruct (find_operation expression) as [[i' operation]|].
  - destruct H as (p' & c' & Hp' & Hc' & Hop & Hs' & Hfirst' & Hlevel').
    assert (p' = priority).
    { destruct (Z.lt_trichotomy p' priority) as [Hlt | [Heq | Hgt]]; auto.
      - exfalso. apply (Hlevel p' i'); [lia | exact Hs'].
      - exfalso. apply (Hlevel' priority i); [lia | exact Hs]. }
    subst p'.
    assert (i' = i).
    { destruct (Nat.lt_trichotomy i' i) as [Hlt | [Heq | Hgt]]; auto.
      - exfalso. apply (Hfirst i'); auto.
      - exfalso. apply (Hfirst' i); auto. }
    subst i'. rewrite Hc in Hc'. injection Hc' as <-. subst operation.
    reflexivity.
  - exfalso. apply (H priority i); auto.
Qed.

Lemma occurrences_cons (c c' : ascii) (s : string) :
  occurrences c (String c' s)
  = (if Ascii.eqb c' c then 1 else 0) + occurrences c s.
Proof. reflexivity. Qed.

Lemma occurrences_get (s : string) :
  forall i c, get i s = Some c -> 1 <= occurrences c s.
Proof.
  induction s as [|c1 s IH]; intros [|i] c H; simpl in *; try discriminate.
  - injection H as ->. rewrite Ascii.eqb_refl. lia.
  - apply IH in H. lia.
Qed.

Lemma find_group_none (s : string) :
  occurrences "(" s = 0 -> find_group s 0 = None.
Proof.
  intros H. destruct (find_group s 0) as [[i j]|] eqn:Hg; [|reflexivity].
  apply find_group_bounds in Hg. destruct Hg as (_ & _ & _ & Hget).
  apply occurrences_get in Hget. lia.
Qed.

(** ** The matching parenthesis, found *)

Lemma matching_close_spec (rest : string) :
  forall j0 open close m,
    m < length rest ->
    (open + Z.of_nat (occurrences "(" (substring 0 (S m) rest))
     = close + Z.of_nat (occurrences ")" (substring 0 (S m) rest)))%Z ->
    (forall k, k < m ->
       (open + Z.of_nat (occurrences "(" (substring 0 (S k) rest))
        <> close + Z.of_nat (occurrences ")" (substring 0 (S k) rest)))%Z) ->
    matching_close rest j0 open close = Some (j0 + m).
Proof.
  induction rest as [|ch rest IH]; intros j0 open close m Hm Hzero Hpos;
    [simpl in Hm; lia|].
  assert (Hstep : forall k,
    (open + Z.of_nat (occurrences "(" (substring 0 (S k) (String ch rest)))
     - (close + Z.of_nat (occurrences ")" (substring 0 (S k) (String ch rest))))
     = (if Ascii.eqb ch "(" then open + 1 else open)
       + Z.of_nat (occurrences "(" (substring 0 k rest))
       - ((if Ascii.eqb ch "(" then close
           else if Ascii.eqb ch ")" then close + 1 else close)
          + Z.of_nat (occurrences ")" (substring 0 k rest))))%Z).
  { intros k. simpl.
    destruct (Ascii.eqb ch "(") eqn:Ho, (Ascii.eqb ch ")") eqn:Hc; try lia.
    apply Ascii.eqb_eq in Ho, Hc. congruence. }
  simpl matching_close.
  destruct m as [|m].
  - specialize (Hstep 0). simpl substring at 3 4 in Hstep.
    assert (Hsub : substring 0 0 rest = "") by (destruct rest; reflexivity).
    rewrite Hsub in Hstep. simpl occurrences at 3 4 in Hstep.
    match goal with |- (if ?b then _ else _) = _ => replace b with true end.
    + f_equal. lia.
    + symmetry. apply Z.eqb_eq. lia.
  - pose proof (Hpos 0 ltac:(lia)) as H0.
    pose proof (Hstep 0) as Hstep0.
    assert (Hsub : substring 0 0 rest = "") by (destruct rest; reflexivity).
    rewrite Hsub in Hstep0. simpl occurrences at 3 4 in Hstep0.
    match goal with |- (if ?b then _ else _) = _ => replace b with false end.
    + replace (j0 + S m) with (S j0 + m) by lia.
      apply IH.
      * simpl in Hm. lia.
      * pose proof (Hstep (S m)). lia.
      * intros k Hk. pose proof (Hpos (S k) ltac:(lia)).
        pose proof (Hstep (S k)). lia.
    + symmetry. apply Z.eqb_neq. lia.
Qed.

Lemma find_group_spec (rest : string) :
  forall i0 a m,
    get a rest = Some "("%char ->
    (forall k, k < a -> get k rest <> Some "("%char) ->
    a + S m < length rest ->
    depth rest a (S m) = 0%Z ->
    (forall k, k <= m -> depth rest a k <> 0%Z) ->
    find_group rest i0 = Some (i0 + a, i0 + a + S m).
Proof.
  induction rest as [|ch rest IH]; intros i0 a m Hget Hfirst Hlen Hzero Hpos;
    [destruct a; discriminate|].
  destruct a as [|a].
  - simpl in Hget. injection Hget as ->.
    simpl find_group.
    rewrite (matching_close_spec rest (S i0) 1 0 m).
    + f_equal. f_equal; lia.
    + simpl in Hlen. lia.
    + unfold depth in Hzero.
      change (substring 0 (S (S m)) (String "(" rest))
        with (String "(" (substring 0 (S m) rest)) in Hzero.
      rewrite !occurrences_cons in Hzero. simpl Ascii.eqb in Hzero.
      cbv iota in Hzero. lia.
    + intros k Hk. specialize (Hpos (S k) ltac:(lia)).
      unfold depth in Hpos.
      change (substring 0 (S (S k)) (String "(" rest))
        with (String "(" (substring 0 (S k) rest)) in Hpos.
      rewrite !occurrences_cons in Hpos. simpl Ascii.eqb in Hpos.
      cbv iota in Hpos. lia.
  - simpl in Hget. simpl find_group.
    assert (Hch : Ascii.eqb ch "(" = false).
    { apply Ascii.eqb_neq. intros ->. apply (Hfirst 0); [lia | reflexivity]. }
    rewrite Hch.
    replace (i0 + S a) with (S i0 + a) by lia.
    apply IH; auto.
    + intros k Hk. apply (Hfirst (S k)). lia.
    + simpl in Hlen. lia.
Qed.

Lemma find_group_closes (s : string) (i j : nat) :
  first_open s i -> closes s i j -> find_group s 0 = Some (i, j).
Proof.
  intros [Hget Hfirst] (Hij & Hj & Hzero & Hpos).
  pose proof (find_group_spec s 0 i (j - i - 1) Hget Hfirst) as H.
  replace (S (j - i - 1)) with (j - i) in H by lia.
  replace (0 + i + (j - i)) with j in H by lia.
  apply H; auto; try lia.
  intros k Hk. apply Hpos. lia.
Qed.

(** ** Operands *)

Lemma all_chars_app (p : ascii -> bool) (s1 s2 : string) :
  all_chars p (s1 ++ s2) = all_chars p s1 && all_chars p s2.
Proof.
  induction s1 as [|c s1 IH]; simpl; [reflexivity|].
  rewrite IH. apply andb_assoc.
Qed.

Lemma all_chars_get (p : ascii -> bool) (s : string) :
  all_chars p s = true -> forall k c, get k s = Some c -> p c = true.
Proof.
  induction s as [|c1 s IH]; intros H [|k] c Hget; simpl in *; try discriminate;
    apply andb_true_iff in H; destruct H as [H1 H2].
  - injection Hget as <-. exact H1.
  - eapply IH; eauto.
Qed.

Lemma all_chars_weaken (p q : ascii -> bool) (s : string) :
  (forall c, p c = true -> q c = true) ->
  all_chars p s = true -> all_chars q s = true.
Proof.
  intros Hpq. induction s as [|c s IH]; simpl; [reflexivity|].
  intros H. apply andb_true_iff in H. destruct H as [H1 H2].
  rewrite (Hpq c H1), (IH H2). reflexivity.
Qed.

Lemma all_chars_occurrences (p : ascii -> bool) (c : ascii) (s : string) :
  p c = false -> all_chars p s = true -> occurrences c s = 0.
Proof.
  intros Hc. induction s as [|c1 s IH]; simpl; [reflexivity|].
  intros H. apply andb_true_iff in H. destruct H as [H1 H2].
  destruct (Ascii.eqb c1 c) eqn:Heq.
  - apply Ascii.eqb_eq in Heq. congruence.
  - rewrite (IH H2). reflexivity.
Qed.

Lemma operand_none_looser (below : Z) (s : string) :
  operand s = true -> none_looser below s = true.
Proof.
  apply all_chars_weaken. intros c H. unfold operand_char in H.
  apply andb_true_iff in H. destruct H as [H _].
  apply Operation_eqb_eq in H. rewrite H. reflexivity.
Qed.

Lemma operand_occurrences (s : string) :
  operand s = true -> occurrences "(" s = 0.
Proof. apply all_chars_occurrences. reflexivity. Qed.

Lemma none_looser_splits (below : Z) (s : string) :
  none_looser below s = true ->
  forall q k, (1 <= q < below)%Z -> ~ splits_at s q k.
Proof.
  intros H q k Hq (c & Hget & Hprio & _).
  apply (all_chars_get _ _ H) in Hget. simpl in Hget.
  rewrite Hprio in Hget. apply orb_true_iff in Hget.
  destruct Hget as [Hz | Hle]; [apply Z.eqb_eq in Hz | apply Z.leb_le in Hle]; lia.
Qed.

Lemma operand_splits (s : string) :
  operand s = true -> forall q k, (1 <= q)%Z -> ~ splits_at s q k.
Proof.
  intros H q k Hq.
  apply (none_looser_splits (q + 1)); [|lia].
  apply operand_none_looser. exact H.
Qed.

Lemma get_prefix (x r : string) :
  forall k, k < length x -> get k (x ++ r) = get k x.
Proof.
  induction x as [|c x IH]; intros [|k] Hk; simpl in *; try lia; auto.
  apply IH. lia.
Qed.

Lemma suffix_after (x r : string) (c : ascii) :
  substr_from (x ++ String c r) (length x + 1) = r.
Proof.
  pose proof (suffix_of_append (x ++ String c "") r) as H.
  rewrite append_assoc, length_append in H. exact H.
Qed.

Lemma find_operation_none (s : string) :
  (forall q k, (1 <= q <= 3)%Z -> ~ splits_at s q k) ->
  find_operation s = None.
Proof.
  intros H. pose proof (find_operation_spec s) as Hspec.
  destruct (find_operation s) as [[i operation]|]; [|reflexivity].
  destruct Hspec as (p & c & Hp & _ & _ & Hs & _).
  exfalso. apply (H p i); auto.
Qed.

Lemma priority_range (c : ascii) :
  getOperationFromChar c <> NONE ->
  (1 <= getPriority (getOperationFromChar c) <= 3)%Z.
Proof.
  destruct (getOperationFromChar c); simpl; intros H; try lia. congruence.
Qed.

Lemma operator_not_open (c : ascii) :
  getOperationFromChar c <> NONE -> Ascii.eqb c "(" = false.
Proof.
  intros H. apply Ascii.eqb_neq. intros ->. apply H. reflexivity.
Qed.

(** ** One step of [parseToken] *)

Section Steps.

Variable lib : Library.

Lemma parse_group (s : string) (i j : nat) (sub pre post : string) :
  find_group s 0 = Some (i, j) ->
  substring (i + 1) (j - i - 1) s = sub ->
  substring 0 i s = pre ->
  substr_from s (j + 1) = post ->
  parseToken lib s =
  (token <- parseToken lib sub ;;
   parseToken lib (pre ++ std_to_string lib (resolve lib token) ++ post)).
Proof. intros H <- <- <-. rewrite parseToken_unfold, H. reflexivity. Qed.

Lemma parse_split (s : string) (i : nat) (operation : Operation)
  (left right : string) :
  find_group s 0 = None ->
  find_operation s = Some (i, operation) ->
  substring 0 i s = left ->
  substr_from s (i + 1) = right ->
  parseToken lib s =
  (a <- parseToken lib left ;;
   b <- parseToken lib right ;;
   ret (OperationToken operation a b)).
Proof. intros Hg Ho <- <-. rewrite parseToken_unfold, Hg, Ho. reflexivity. Qed.

Lemma parse_literal (s : string) :
  find_group s 0 = None ->
  find_operation s = None ->
  parseToken lib s = literal lib s.
Proof. intros Hg Ho. rewrite parseToken_unfold, Hg, Ho. reflexivity. Qed.

Lemma parse_operand (x : string) :
  operand x = true -> parseToken lib x = literal lib x.
Proof.
  intros H. apply parse_literal.
  - apply find_group_none, operand_occurrences, H.
  - apply find_operation_none. intros q k Hq. apply operand_splits; [exact H | lia].
Qed.

(** A minus sign in front of an operand belongs to the literal. *)
Lemma parse_signed_operand (r : string) :
  operand r = true ->
  parseToken lib (String "-" r) = literal lib (String "-" r).
Proof.
  intros Hr. apply parse_literal.
  - apply find_group_none. rewrite occurrences_cons.
    rewrite (operand_occurrences r Hr). reflexivity.
  - apply find_operation_none. intros q k Hq (c & Hget & Hprio & Hnot).
    destruct k as [|k].
    + simpl in Hget. injection Hget as <-. apply Hnot. auto.
    + simpl in Hget. apply (all_chars_get _ _ Hr) in Hget.
      unfold operand_char in Hget. apply andb_true_iff in Hget.
      destruct Hget as [Hnone _]. apply Operation_eqb_eq in Hnone.
      rewrite Hnone in Hprio. simpl in Hprio. lia.
Qed.

(** An operand, an operator sign and a rest that holds no looser operator:
    the split is at that sign. *)
Lemma parse_binary (x r : string) (c : ascii) :
  operand x = true -> x <> "" ->
  getOperationFromChar c <> NONE ->
  occurrences "(" r = 0 ->
  none_looser (getPriority (getOperationFromChar c)) r = true ->
  parseToken lib (x ++ String c r) =
  (a <- literal lib x ;;
   b <- parseToken lib r ;;
   ret (OperationToken (getOperationFromChar c) a b)).
Proof.
  intros Hx Hne Hc Hr Hloose.
  pose proof (priority_range c Hc) as Hp.
  assert (Hget : get (length x) (x ++ String c r) = Some c).
  { rewrite <- (Nat.add_0_r (length x)) at 1. apply get_append. }
  rewrite (parse_split (x ++ String c r) (length x) (getOperationFromChar c) x r).
  - rewrite (parse_operand x Hx). reflexivity.
  - apply find_group_none.
    rewrite occurrences_app, occurrences_cons, (operand_occurrences x Hx), Hr.
    rewrite (operator_not_open c Hc). reflexivity.
  - apply (find_operation_first _ (getPriority (getOperationFromChar c)));
      auto.
    + exists c. repeat split; auto. intros [Hzero _].
      destruct x; [congruence | discriminate].
    + intros k Hk (c' & Hget' & Hprio & _).
      rewrite get_prefix in Hget' by exact Hk.
      apply (all_chars_get _ _ Hx) in Hget'. unfold operand_char in Hget'.
      apply andb_true_iff in Hget'. destruct Hget' as [Hnone _].
      apply Operation_eqb_eq in Hnone. rewrite Hnone in Hprio.
      simpl in Hprio. lia.
    + apply none_looser_splits. unfold none_looser.
      rewrite all_chars_app. simpl.
      fold (none_looser (getPriority (getOperationFromChar c)) x).
      fold (none_looser (getPriority (getOperationFromChar c)) r).
      rewrite (operand_none_looser _ x Hx), Hloose, Z.leb_refl, orb_true_r.
      reflexivity.
  - apply prefix_of_append.
  - apply suffix_after.
Qed.

End Steps.

(** The parser run on a text without unknowns: each [parseToken] in the
    goal is unfolded once, with what the loops find computed. *)
Ltac parse_step lib :=
  match goal with
  | |- context [parseToken lib ?s] =>
      lazymatch s with context [std_to_string] => fail | _ => idtac end;
      let g := eval vm_compute in (find_group s 0) in
      lazymatch g with
      | Some (?i, ?j) =>
          let sub := eval vm_compute in (substring (i + 1) (j - i - 1) s) in
          let pre := eval vm_compute in (substring 0 i s) in
          let post := eval vm_compute in (substr_from s (j + 1)) in
          rewrite (parse_group lib s i j sub pre post) by (vm_compute; reflexivity)
      | None =>
          let o := eval vm_compute in (find_operation s) in
          lazymatch o with
          | Some (?i, ?op) =>
              let l := eval vm_compute in (substring 0 i s) in
              let r := eval vm_compute in (substr_from s (i + 1)) in
              rewrite (parse_split lib s i op l r) by (vm_compute; reflexivity)
          | None =>
              rewrite (parse_literal lib s) by (vm_compute; reflexivity);
              unfold literal, parseNumber; cbn [String.eqb Ascii.eqb Bool.eqb]
          end
      end
  end.

Ltac parse lib :=
  unfold calculate, compileExpression;
  cbn [remove_spaces Ascii.eqb Bool.eqb];
  repeat parse_step lib.

(** ** Decimal literals *)


Lemma remove_spaces_none (s : string) :
  all_chars (fun c => negb (Ascii.eqb c " ")) s = true -> remove_spaces s = s.
Proof.
  induction s as [|c s IH]; simpl; [reflexivity|]. intros H.
  apply andb_true_iff in H. destruct H as [Hc Hs].
  apply negb_true_iff in Hc. rewrite Hc, (IH Hs). reflexivity.
Qed.


(** Bounds on the exact value of a float, by computation. *)
Ltac between :=
  split;
  [ unfold Qle; vm_compute; intros H; discriminate H
  | unfold Qlt; vm_compute; reflexivity ].

(** ** The earlier parser against the present one *)

Lemma legacy_scan_agrees (priority : Z) (rest : string) :
  forall pre,
    pre <> "" ->
    scan_operation priority (pre ++ rest) rest (length pre)
    = Legacy.scan_operation priority rest (length pre).
Proof.
  induction rest as [|c rest IH]; intros pre Hpre; [reflexivity|].
  assert (Hnext : scan_operation priority (pre ++ String c rest) rest
                    (S (length pre))
                  = Legacy.scan_operation priority rest (S (length pre))).
  { specialize (IH (pre ++ String c "")).
    rewrite append_assoc, length_append, Nat.add_1_r in IH.
    apply IH. destruct pre; [congruence | discriminate]. }
  simpl. rewrite prefix_of_append, Hnext.
  destruct pre as [|c0 pre]; [congruence|]. reflexivity.
Qed.

Lemma legacy_scan_top (priority : Z) (s : string) :
  Legacy.scan_operation priority s 0 = Some (0, MIN)
  \/ scan_operation priority s s 0 = Legacy.scan_operation priority s 0.
Proof.
  destruct s as [|c r]; [right; reflexivity|].
  pose proof (legacy_scan_agrees priority r (String c "") ltac:(discriminate))
    as Hnext.
  simpl in Hnext. simpl. rewrite Hnext.
  destruct (Operation_eqb (getOperationFromChar c) NONE); [right; reflexivity|].
  destruct (negb _); [right; reflexivity|].
  destruct (Operation_eqb (getOperationFromChar c) MIN) eqn:Hmin.
  - left. apply Operation_eqb_eq in Hmin. rewrite Hmin. reflexivity.
  - right. reflexivity.
Qed.

Lemma legacy_find_operation (s : string) :
  Legacy.find_operation s = Some (0, MIN)
  \/ find_operation s = Legacy.find_operation s.
Proof.
  unfold find_operation, Legacy.find_operation, MIN_PRIORITY, MAX_PRIORITY.
  simpl.
  destruct (legacy_scan_top 1 s) as [H1 | H1]; rewrite H1; [left; reflexivity|].
  destruct (Legacy.scan_operation 1 s 0); [right; reflexivity|].
  destruct (legacy_scan_top 2 s) as [H2 | H2]; rewrite H2; [left; reflexivity|].
  destruct (Legacy.scan_operation 2 s 0); [right; reflexivity|].
  destruct (legacy_scan_top 3 s) as [H3 | H3]; rewrite H3; [left; reflexivity|].
  right. reflexivity.
Qed.

Section Refinement.

Variable lib : Library.

Lemma legacy_parseToken_rec_eq (groups size : nat) (expression : string) :
  Legacy.parseToken_rec lib groups size expression =
  match find_group expression 0 with
  | Some (i, j) =>
      match groups with
      | O => None
      | S groups' =>
          let subExpression := substring (i + 1) (j - i - 1) expression in
          token <- Legacy.parseToken_rec lib groups'
                     (length subExpression) subExpression ;;
          let newExpression :=
            substring 0 i expression
            ++ std_to_string lib (resolve lib token)
            ++ substr_from expression (j + 1) in
          Legacy.parseToken_rec lib groups' (length newExpression) newExpression
      end
  | None =>
      match Legacy.find_operation expression with
      | Some (i, operation) =>
          match size with
          | O => None
          | S size' =>
              a <- Legacy.parseToken_rec lib groups size'
                     (substring 0 i expression) ;;
              b <- Legacy.parseToken_rec lib groups size'
                     (substr_from expression (i + 1)) ;;
              ret (OperationToken operation a b)
          end
      | None => Some (lift NumberToken (parseNumber lib expression))
      end
  end.
Proof. destruct groups, size; reflexivity. Qed.

(** With the budget [parseToken] starts from, the earlier parser finishes
    too, and a tree it returns is the tree of the present parser. *)
Lemma legacy_rec_refines (e0 : exception) :
  std_stod lib "" = Throw e0 ->
  forall groups size expression,
    occurrences "(" expression <= groups -> length expression <= size ->
    match Legacy.parseToken_rec lib groups size expression with
    | Some (Ok t) => parseToken_rec lib groups size expression = Some (Ok t)
    | Some (Throw _) => True
    | None => False
    end.
Proof.
  intros Hempty.
  induction groups as [groups IHg] using lt_wf_ind.
  induction size as [size IHs] using lt_wf_ind.
  intros s Hg Hs.
  rewrite legacy_parseToken_rec_eq, parseToken_rec_eq.
  destruct (find_group s 0) as [[i j]|] eqn:Hgroup.
  - pose proof (find_group_occurrences s i j Hgroup) as Hocc.
    destruct groups as [|g]; [lia|]. cbv zeta.
    pose proof (IHg g (Nat.lt_succ_diag_r g)
                  (length (substring (i + 1) (j - i - 1) s))
                  (substring (i + 1) (j - i - 1) s) ltac:(lia) ltac:(lia))
      as Hsub.
    destruct (Legacy.parseToken_rec lib g _ (substring (i + 1) (j - i - 1) s))
      as [[token|e]|]; [|exact I|contradiction].
    rewrite Hsub. cbn [bind].
    pose proof (newExpression_occurrences lib s i j (resolve lib token) Hgroup).
    apply IHg; lia.
  - destruct (legacy_find_operation s) as [Hminus | Hsame].
    + rewrite Hminus.
      destruct size as [|n].
      * exfalso. destruct s; [discriminate Hminus | simpl in Hs; lia].
      * rewrite substring_0_0.
        rewrite (legacy_parseToken_rec_eq groups n "").
        change (find_group "" 0) with (@None (nat * nat)).
        change (Legacy.find_operation "") with (@None (nat * Operation)).
        cbv iota. unfold parseNumber. cbn [String.eqb].
        rewrite Hempty. exact I.
    + rewrite Hsame.
      destruct (Legacy.find_operation s) as [[i operation]|] eqn:Hop.
      2:{ destruct (parseNumber lib s); [reflexivity | exact I]. }
      pose proof (find_operation_bounds s i operation Hsame) as Hi.
      destruct size as [|n]; [lia|].
      pose proof (occurrences_substring_le "(" s 0 i).
      pose proof (occurrences_suffix_le "(" s (i + 1)).
      pose proof (length_prefix s i ltac:(lia)).
      pose proof (length_suffix s (i + 1)).
      pose proof (IHs n (Nat.lt_succ_diag_r n) (substring 0 i s)
                    ltac:(lia) ltac:(lia)) as Hleft.
      pose proof (IHs n (Nat.lt_succ_diag_r n) (substr_from s (i + 1))
                    ltac:(lia) ltac:(lia)) as Hright.
      destruct (Legacy.parseToken_rec lib groups n (substring 0 i s))
        as [[a|e]|]; [|exact I|contradiction].
      rewrite Hleft. cbn [bind].
      destruct (Legacy.parseToken_rec lib groups n (substr_from s (i + 1)))
        as [[b|e]|]; [|exact I|contradiction].
      rewrite Hright. reflexivity.
Qed.

End Refinement.

(** * The claims *)

(** C1, as the code has it. In a string without opening parenthesis, take
    the first level from 1 to 3 at which some character may split (its
    operation has that priority, and it is not a minus sign in the first
    place) and the leftmost such character: [parseToken] compiles the text
    before it and the text after it and returns the operation node of the
    two. With [2+3*4] the value is 14. *)
Theorem split_at_first_match (lib : Library) :
  (forall (s : string) (priority : Z) (i : nat) (c : ascii),
     occurrences "(" s = 0 ->
     (1 <= priority <= 3)%Z ->
     get i s = Some c ->
     splits_at s priority i ->
     (forall k, k < i -> ~ splits_at s priority k) ->
     (forall q k, (1 <= q < priority)%Z -> ~ splits_at s q k) ->
     parseToken lib s =
     (a <- parseToken lib (substring 0 i s) ;;
      b <- parseToken lib (substr_from s (i + 1)) ;;
      ret (OperationToken (getOperationFromChar c) a b)))
  /\ (std_stod lib "2" = Ok 2%float ->
      std_stod lib "3" = Ok 3%float ->
      std_stod lib "4" = Ok 4%float ->
      calculate lib "2+3*4" = Some (Ok 14%float)).
Proof.
  split.
  - intros s priority i c Hopen Hp Hc Hs Hfirst Hlevel.
    apply (parse_split lib s i (getOperationFromChar c)); auto.
    + apply find_group_none, Hopen.
    + apply (find_operation_first s priority); auto.
  - intros H2 H3 H4. parse lib. rewrite H2, H3, H4. reflexivity.
Qed.

Lemma split_at_first_match_witness :
  parseToken reference "2+3*4" =
    (a <- parseToken reference "2" ;;
     b <- parseToken reference "3*4" ;;
     ret (OperationToken SUM a b))
  /\ calculate reference "2+3*4" = Some (Ok 14%float).
Proof.
  destruct (split_at_first_match reference) as [Hsplit Hvalue]. split.
  - apply (Hsplit "2+3*4" 1%Z 1 "+"%char).
    + reflexivity.
    + lia.
    + reflexivity.
    + exists "+"%char. repeat split. intros [H _]. discriminate.
    + intros k Hk (c & Hget & Hprio & _).
      assert (k = 0) by lia. subst k. simpl in Hget.
      injection Hget as <-. discriminate.
    + intros q k Hq. lia.
  - apply Hvalue; reflexivity.
Defined.

(** C1 as stated fails on [-5]: the string has no parenthesis, its first
    character is an operator sign of level 1, and yet no operation node is
    built: the result is a number node. *)
Lemma leading_minus_not_split :
  occurrences "(" "-5" = 0
  /\ occurrences ")" "-5" = 0
  /\ matches "-5" 1 0
  /\ parseToken reference "-5" = Some (Ok (NumberToken (-5)%float)).
Proof.
  split; [reflexivity|]. split; [reflexivity|]. split.
  - exists "-"%char. split; reflexivity.
  - vm_compute. reflexivity.
Qed.

(** C2. The split point is the leftmost character of its level, as the
    claim says, but the chain does not come out left-associative: the two
    operands are the text before and the whole text after that place, so
    a chain [x c1 y c2 z] of two operators of one level is compiled with
    the first operator at the root and the rest of the chain as its right
    operand. [8-3-2] is compiled as 8-(3-2) and evaluates to 7 where the
    claim, and arithmetic, say 3; [2^3^2] is compiled as 2^(3^2) and
    evaluates to 512 where the claim says 64. *)
Theorem leftmost_split_groups_right (lib : Library) :
  (forall s i operation,
     occurrences "(" s = 0 ->
     find_operation s = Some (i, operation) ->
     (forall k, k < i -> ~ splits_at s (getPriority operation) k)
     /\ parseToken lib s =
        (a <- parseToken lib (substring 0 i s) ;;
         b <- parseToken lib (substr_from s (i + 1)) ;;
         ret (OperationToken operation a b)))
  /\ (forall (x y z : string) (c1 c2 : ascii),
        operand x = true -> operand y = true -> operand z = true ->
        x <> "" -> y <> "" ->
        getOperationFromChar c1 <> NONE ->
        getPriority (getOperationFromChar c1)
        = getPriority (getOperationFromChar c2) ->
        parseToken lib (x ++ String c1 (y ++ String c2 z)) =
        (a <- literal lib x ;;
         b <- (b <- literal lib y ;;
               c <- literal lib z ;;
               ret (OperationToken (getOperationFromChar c2) b c)) ;;
         ret (OperationToken (getOperationFromChar c1) a b)))
  /\ (std_stod lib "8" = Ok 8%float ->
      std_stod lib "3" = Ok 3%float ->
      std_stod lib "2" = Ok 2%float ->
      parseToken lib "8-3-2"
      = Some (Ok (OperationToken MIN (NumberToken 8%float)
                    (OperationToken MIN (NumberToken 3%float)
                       (NumberToken 2%float))))
      /\ calculate lib "8-3-2" = Some (Ok 7%float))
  /\ (std_stod lib "2" = Ok 2%float ->
      std_stod lib "3" = Ok 3%float ->
      std_pow lib 3%float 2%float = 9%float ->
      std_pow lib 2%float 9%float = 512%float ->
      parseToken lib "2^3^2"
      = Some (Ok (OperationToken POW (NumberToken 2%float)
                    (OperationToken POW (NumberToken 3%float)
                       (NumberToken 2%float))))
      /\ calculate lib "2^3^2" = Some (Ok 512%float)).
Proof.
  split; [|split; [|split]].
  - intros s i operation Hopen Hfind. split.
    + pose proof (find_operation_spec s) as Hspec. rewrite Hfind in Hspec.
      destruct Hspec as (p & c & _ & Hc & Hop & (c' & Hc' & Hprio & _) & Hfirst & _).
      rewrite Hc in Hc'. injection Hc' as <-. subst operation.
      rewrite Hprio. exact Hfirst.
    + apply (parse_split lib s i operation); auto.
      apply find_group_none, Hopen.
  - intros x y z c1 c2 Hx Hy Hz Hnex Hney Hc1 Hsame.
    assert (Hc2 : getOperationFromChar c2 <> NONE).
    { intros H. rewrite H in Hsame. simpl in Hsame.
      pose proof (priority_range c1 Hc1). lia. }
    rewrite (parse_binary lib x (y ++ String c2 z) c1); auto.
    + rewrite (parse_binary lib y z c2); auto.
      * rewrite (parse_operand lib z Hz). reflexivity.
      * apply operand_occurrences, Hz.
      * apply operand_none_looser, Hz.
    + rewrite occurrences_app, occurrences_cons.
      rewrite (operand_occurrences y Hy), (operand_occurrences z Hz).
      rewrite (operator_not_open c2 Hc2). reflexivity.
    + unfold none_looser. rewrite all_chars_app. simpl.
      fold (none_looser (getPriority (getOperationFromChar c1)) y).
      fold (none_looser (getPriority (getOperationFromChar c1)) z).
      rewrite (operand_none_looser _ y Hy), (operand_none_looser _ z Hz).
      rewrite Hsame, Z.leb_refl, orb_true_r. reflexivity.
  - intros H8 H3 H2.
    assert (Htree : parseToken lib "8-3-2"
      = Some (Ok (OperationToken MIN (NumberToken 8%float)
                    (OperationToken MIN (NumberToken 3%float)
                       (NumberToken 2%float))))).
    { parse lib. rewrite H8, H3, H2. reflexivity. }
    split; [exact Htree|].
    unfold calculate, compileExpression. cbn [remove_spaces Ascii.eqb Bool.eqb].
    rewrite Htree. reflexivity.
  - intros H2 H3 Hpow1 Hpow2.
    assert (Htree : parseToken lib "2^3^2"
      = Some (Ok (OperationToken POW (NumberToken 2%float)
                    (OperationToken POW (NumberToken 3%float)
                       (NumberToken 2%float))))).
    { parse lib. rewrite H2, H3. reflexivity. }
    split; [exact Htree|].
    unfold calculate, compileExpression. cbn [remove_spaces Ascii.eqb Bool.eqb].
    rewrite Htree. cbn [bind ret resolve]. rewrite Hpow1, Hpow2. reflexivity.
Qed.

Lemma leftmost_split_groups_right_witness :
  parseToken reference "8-3-2" =
    (a <- parseToken reference "8" ;;
     b <- parseToken reference "3-2" ;;
     ret (OperationToken MIN a b))
  /\ parseToken reference ("8" ++ String "/" ("4" ++ String "/" "2")) =
     (a <- literal reference "8" ;;
      b <- (b <- literal reference "4" ;;
            c <- literal reference "2" ;;
            ret (OperationToken DIV b c)) ;;
      ret (OperationToken DIV a b))
  /\ calculate reference "8-3-2" = Some (Ok 7%float)
  /\ calculate reference "2^3^2" = Some (Ok 512%float).
Proof.
  destruct (leftmost_split_groups_right reference)
    as (Hleft & Hchain & Hminus & Hpow).
  split; [|split; [|split]].
  - apply (Hleft "8-3-2" 1 MIN); reflexivity.
  - apply (Hchain "8" "4" "2" "/"%char "/"%char);
      try reflexivity; discriminate.
  - apply Hminus; reflexivity.
  - apply Hpow; reflexivity.
Defined.

(** On [8-3-2] the code returns the tree of 8-(3-2) and the value 7, which
    is not 3; on [8/4/2] the value 4, not 1; and the tree of [2^3^2] is
    that of 2^(3^2), with the value 512, not 64. *)
Lemma subtraction_chain_groups_right :
  parseToken reference "8-3-2"
  = Some (Ok (OperationToken MIN (NumberToken 8%float)
                (OperationToken MIN (NumberToken 3%float)
                   (NumberToken 2%float))))
  /\ calculate reference "8-3-2" = Some (Ok 7%float)
  /\ PrimFloat.eqb 7%float 3%float = false
  /\ calculate reference "8/4/2" = Some (Ok 4%float)
  /\ parseToken reference "2^3^2"
     = Some (Ok (OperationToken POW (NumberToken 2%float)
                   (OperationToken POW (NumberToken 3%float)
                      (NumberToken 2%float))))
  /\ calculate reference "2^3^2" = Some (Ok 512%float).
Proof.
  repeat split; vm_compute; reflexivity.
Qed.

(** C3. When [i] is the first opening parenthesis of the string and [j]
    the place where the nesting counter started there returns to zero,
    [parseToken] compiles the text strictly between them, evaluates it,
    puts the printed value in place of the group, parentheses included,
    and compiles the new string; no operator of the string is looked at
    before. With [(2+3)*4] the value is 20, with [((1+2))*3] it is 9. *)
Theorem group_folded_first (lib : Library) :
  (forall s i j,
     first_open s i -> closes s i j ->
     parseToken lib s =
     (token <- parseToken lib (substring (i + 1) (j - i - 1) s) ;;
      parseToken lib
        (substring 0 i s
         ++ std_to_string lib (resolve lib token)
         ++ substr_from s (j + 1))))
  /\ (std_stod lib "2" = Ok 2%float ->
      std_stod lib "3" = Ok 3%float ->
      std_stod lib "4" = Ok 4%float ->
      std_to_string lib 5%float = "5.000000" ->
      std_stod lib "5.000000" = Ok 5%float ->
      calculate lib "(2+3)*4" = Some (Ok 20%float))
  /\ (std_stod lib "1" = Ok 1%float ->
      std_stod lib "2" = Ok 2%float ->
      std_stod lib "3" = Ok 3%float ->
      std_to_string lib 3%float = "3.000000" ->
      std_stod lib "3.000000" = Ok 3%float ->
      calculate lib "((1+2))*3" = Some (Ok 9%float)).
Proof.
  split; [|split].
  - intros s i j Hopen Hclose.
    apply (parse_group lib s i j); auto. apply find_group_closes; assumption.
  - intros H2 H3 H4 Hprint H5.
    parse lib. rewrite H2, H3. cbn [lift bind ret resolve].
    replace (2 + 3)%float with 5%float by reflexivity.
    rewrite Hprint. cbn [append].
    parse lib. rewrite H5, H4. reflexivity.
  - intros H1 H2 H3 Hprint H3'.
    parse lib. rewrite H1, H2. cbn [lift bind ret resolve].
    replace (1 + 2)%float with 3%float by reflexivity.
    rewrite Hprint. cbn [append].
    parse lib. rewrite H3'. cbn [lift bind ret resolve].
    rewrite Hprint. cbn [append].
    parse lib. rewrite H3', H3. reflexivity.
Qed.

Lemma group_folded_first_witness :
  parseToken reference "(2+3)*4" =
    (token <- parseToken reference "2+3" ;;
     parseToken reference
       ("" ++ Reference.to_string (resolve reference token) ++ "*4"))
  /\ calculate reference "(2+3)*4" = Some (Ok 20%float)
  /\ calculate reference "((1+2))*3" = Some (Ok 9%float).
Proof.
  destruct (group_folded_first reference) as (Hgroup & Hone & Htwo).
  split; [|split].
  - apply (Hgroup "(2+3)*4" 0 4).
    + split; [reflexivity|]. intros k Hk. lia.
    + split; [lia|]. split; [simpl; lia|]. split; [reflexivity|].
      intros k Hk.
      destruct k as [|[|[|[|k]]]]; try (simpl in Hk; lia);
        vm_compute; intros H; discriminate H.
  - apply Hone; reflexivity.
  - apply Htwo; reflexivity.
Defined.

(** C4. [resolve] follows the tree: a number node gives its value, an
    operation node combines the values of its two children by the
    operator of its kind, the power by [std::pow]; evaluating a node any
    number of times gives the same value each time. *)
Theorem resolve_structural (lib : Library) :
  (forall value, resolve lib (NumberToken value) = value)
  /\ (forall a b, resolve lib (OperationToken SUM a b)
                  = (resolve lib a + resolve lib b)%float)
  /\ (forall a b, resolve lib (OperationToken MIN a b)
                  = (resolve lib a - resolve lib b)%float)
  /\ (forall a b, resolve lib (OperationToken MUL a b)
                  = (resolve lib a * resolve lib b)%float)
  /\ (forall a b, resolve lib (OperationToken DIV a b)
                  = (resolve lib a / resolve lib b)%float)
  /\ (forall a b, resolve lib (OperationToken POW a b)
                  = std_pow lib (resolve lib a) (resolve lib b))
  /\ (forall t times,
        map (fun _ : nat => resolve lib t) (seq 0 times)
        = repeat (resolve lib t) times).
Proof.
  repeat match goal with |- _ /\ _ => split end; try reflexivity.
  intros t times. generalize 0.
  induction times as [|times IH]; intros start; simpl; [reflexivity|].
  f_equal. apply IH.
Qed.

(** C5. At level 1 a minus sign with nothing to its left is passed over:
    [find_operation] never splits there, so a string that is a minus sign
    followed by an operand is handed to [parseNumber] whole, sign included.
    With [-5+3] the value is -2. *)
Theorem leading_minus_skipped (lib : Library) :
  (forall s i operation,
     find_operation s = Some (i, operation) ->
     ~ (substring 0 i s = "" /\ operation = MIN))
  /\ (forall r,
        operand r = true ->
        parseToken lib (String "-" r) = literal lib (String "-" r))
  /\ (std_stod lib "-5" = Ok (-5)%float ->
      std_stod lib "3" = Ok 3%float ->
      parseToken lib "-5+3"
      = Some (Ok (OperationToken SUM (NumberToken (-5)%float)
                    (NumberToken 3%float)))
      /\ calculate lib "-5+3" = Some (Ok (-2)%float)).
Proof.
  split; [|split].
  - intros s i operation Hfind [Hleft Hmin].
    pose proof (find_operation_bounds s i operation Hfind) as Hi.
    pose proof (find_operation_spec s) as Hspec. rewrite Hfind in Hspec.
    destruct Hspec as (p & c & _ & Hc & Hop & (c' & Hc' & _ & Hnot) & _).
    rewrite Hc in Hc'. injection Hc' as <-.
    apply Hnot. split.
    + pose proof (length_prefix s i ltac:(lia)) as Hlen.
      rewrite Hleft in Hlen. simpl in Hlen. lia.
    + apply getOperationFromChar_MIN. congruence.
  - apply parse_signed_operand.
  - intros H5 H3.
    assert (Htree : parseToken lib "-5+3"
      = Some (Ok (OperationToken SUM (NumberToken (-5)%float)
                    (NumberToken 3%float)))).
    { parse lib. rewrite H5, H3. reflexivity. }
    split; [exact Htree|].
    unfold calculate, compileExpression. cbn [remove_spaces Ascii.eqb Bool.eqb].
    rewrite Htree. reflexivity.
Qed.

Lemma leading_minus_skipped_witness :
  ~ (substring 0 1 "5-3" = "" /\ MIN = MIN)
  /\ parseToken reference "-5" = literal reference "-5"
  /\ calculate reference "-5+3" = Some (Ok (-2)%float).
Proof.
  destruct (leading_minus_skipped reference) as (Hskip & Hliteral & Hvalue).
  split; [|split].
  - apply (Hskip "5-3" 1 MIN). reflexivity.
  - apply (Hliteral "5"). reflexivity.
  - apply Hvalue; reflexivity.
Defined.

(** C6, as the code has it. A string without opening parenthesis in which
    no place may split is a terminal literal: [parseToken] gives the number
    node of [parseNumber], which knows [pi] and [e] in exactly this
    spelling and hands every other text to [std::stod]: the number
    [std::stod] converts it to is the value, the exception [std::stod]
    throws is the failure. [PI] and [E] agree with the constants to 15
    significant digits; [pi] evaluates to [PI] and [e*2] to
    5.43656365691809... *)
Theorem literal_fallback (lib : Library) :
  (forall s,
     occurrences "(" s = 0 ->
     (forall q k, (1 <= q <= 3)%Z -> ~ splits_at s q k) ->
     parseToken lib s = Some (lift NumberToken (parseNumber lib s)))
  /\ parseNumber lib "pi" = Ok PI
  /\ parseNumber lib "e" = Ok E
  /\ (forall s, s <> "pi" -> s <> "e" -> parseNumber lib s = std_stod lib s)
  /\ (forall s value,
        occurrences "(" s = 0 ->
        (forall q k, (1 <= q <= 3)%Z -> ~ splits_at s q k) ->
        s <> "pi" -> s <> "e" ->
        std_stod lib s = Ok value ->
        parseToken lib s = Some (Ok (NumberToken value)))
  /\ (forall s e,
        occurrences "(" s = 0 ->
        (forall q k, (1 <= q <= 3)%Z -> ~ splits_at s q k) ->
        s <> "pi" -> s <> "e" ->
        std_stod lib s = Throw e ->
        parseToken lib s = Some (Throw e))
  /\ (314159265358979 # 100000000000000 <= exact PI
      /\ exact PI < 314159265358980 # 100000000000000)%Q
  /\ (271828182845904 # 100000000000000 <= exact E
      /\ exact E < 271828182845905 # 100000000000000)%Q
  /\ calculate lib "pi" = Some (Ok PI)
  /\ (std_stod lib "2" = Ok 2%float ->
      calculate lib "e*2" = Some (Ok (E * 2)%float)
      /\ (543656365691809 # 100000000000000 <= exact (E * 2)%float
          /\ exact (E * 2)%float < 543656365691810 # 100000000000000)%Q).
Proof.
  assert (Hterminal : forall s,
     occurrences "(" s = 0 ->
     (forall q k, (1 <= q <= 3)%Z -> ~ splits_at s q k) ->
     parseToken lib s = Some (lift NumberToken (parseNumber lib s))).
  { intros s Hopen Hnone. apply parse_literal.
    - apply find_group_none, Hopen.
    - apply find_operation_none, Hnone. }
  assert (Hother : forall s, s <> "pi" -> s <> "e" ->
                             parseNumber lib s = std_stod lib s).
  { intros s Hpi He. unfold parseNumber.
    destruct (String.eqb_spec s "pi"); [contradiction|].
    destruct (String.eqb_spec s "e"); [contradiction|]. reflexivity. }
  split; [exact Hterminal|].
  split; [reflexivity|]. split; [reflexivity|].
  split; [exact Hother|].
  split.
  { intros s value Hopen Hnone Hpi He Hstod.
    rewrite (Hterminal s Hopen Hnone), (Hother s Hpi He), Hstod. reflexivity. }
  split.
  { intros s e Hopen Hnone Hpi He Hstod.
    rewrite (Hterminal s Hopen Hnone), (Hother s Hpi He), Hstod. reflexivity. }
  split; [between|]. split; [between|].
  split; [parse lib; reflexivity|].
  intros H2. split; [|between].
  parse lib. rewrite H2. reflexivity.
Qed.

Lemma literal_fallback_witness :
  parseToken reference "3.5" = Some (Ok (NumberToken 3.5%float))
  /\ parseToken reference "abc" = Some (Throw invalid_argument)
  /\ parseToken reference "PI" = Some (Throw invalid_argument)
  /\ calculate reference "e*2" = Some (Ok (E * 2)%float).
Proof.
  destruct (literal_fallback reference)
    as (_ & _ & _ & _ & Hvalue & Hthrow & _ & _ & _ & Htwice).
  assert (Hnone : forall s, operand s = true ->
                  forall q k, (1 <= q <= 3)%Z -> ~ splits_at s q k).
  { intros s Hs q k Hq. apply operand_splits; [exact Hs | lia]. }
  split; [|split; [|split]].
  - apply Hvalue; try reflexivity; try discriminate.
    apply Hnone. reflexivity.
  - apply Hthrow; try reflexivity; try discriminate.
    apply Hnone. reflexivity.
  - apply Hthrow; try reflexivity; try discriminate.
    apply Hnone. reflexivity.
  - apply Htwice. reflexivity.
Defined.

(** C6 as stated fails on [2abc]: the string has no parenthesis and no
    operator, it is neither [pi] nor [e] nor a decimal literal, and yet it
    does not fail: [std::stod] converts the number at its head. *)
Lemma trailing_text_accepted :
  occurrences "(" "2abc" = 0
  /\ occurrences ")" "2abc" = 0
  /\ find_operation "2abc" = None
  /\ decimal_literal "2abc" = false
  /\ parseToken reference "2abc" = Some (Ok (NumberToken 2%float)).
Proof. repeat split; vm_compute; reflexivity. Qed.




(** Where the decimal literals end: a plus sign in front is an operator
    with an empty left operand, and the sign of an exponent is an operator
    too. *)
Lemma beyond_decimal_literals :
  decimal_literal "+5" = false
  /\ calculate reference "+5" = Some (Throw invalid_argument)
  /\ decimal_literal "1e-5" = false
  /\ calculate reference "1e-5" = Some (Ok (-4)%float).
Proof. repeat split; vm_compute; reflexivity. Qed.

(** C9. The classifier: the five operator signs map to their operations and
    every other character to [NONE]; sums and differences have priority 1,
    products and quotients 2, powers 3 and [NONE] 0, so a priority lies
    between 0 and 3. *)
Theorem classifier_total :
  getOperationFromChar "+" = SUM
  /\ getOperationFromChar "-" = MIN
  /\ getOperationFromChar "*" = MUL
  /\ getOperationFromChar "/" = DIV
  /\ getOperationFromChar "^" = POW
  /\ (forall c : ascii,
        getOperationFromChar c = NONE <->
        (c <> "+" /\ c <> "-" /\ c <> "*" /\ c <> "/" /\ c <> "^")%char)
  /\ getPriority SUM = 1%Z /\ getPriority MIN = 1%Z
  /\ getPriority MUL = 2%Z /\ getPriority DIV = 2%Z
  /\ getPriority POW = 3%Z /\ getPriority NONE = 0%Z
  /\ (forall operation : Operation, (0 <= getPriority operation <= 3)%Z).
Proof.
  repeat match goal with |- _ /\ _ => split end; try reflexivity.
  - intros c.
    destruct c as [[] [] [] [] [] [] [] []]; simpl; split;
      solve [ reflexivity
            | discriminate
            | intros _; repeat split; discriminate
            | intros (H1 & H2 & H3 & H4 & H5); congruence ].
  - intros operation. destruct operation; simpl; lia.
Qed.

(** C10, as the code has it. When [std::stod] rejects the empty string,
    the parser of main.cpp extends the one of part_000: a tree the earlier
    parser returns is the tree the present one returns, with the same
    value; and where the present parser throws, the earlier one throws as
    well. *)
Theorem legacy_refined (lib : Library) (e0 : exception) :
  std_stod lib "" = Throw e0 ->
  (forall s t,
     Legacy.parseToken lib s = Some (Ok t) ->
     parseToken lib s = Some (Ok t))
  /\ (forall s e,
        parseToken lib s = Some (Throw e) ->
        exists e', Legacy.parseToken lib s = Some (Throw e')).
Proof.
  intros Hempty.
  assert (Hrel : forall s,
    match Legacy.parseToken lib s with
    | Some (Ok t) => parseToken lib s = Some (Ok t)
    | Some (Throw _) => True
    | None => False
    end).
  { intros s. unfold Legacy.parseToken, parseToken.
    apply (legacy_rec_refines lib e0 Hempty); lia. }
  split.
  - intros s t Hlegacy. specialize (Hrel s). rewrite Hlegacy in Hrel.
    exact Hrel.
  - intros s e Hthrow. specialize (Hrel s).
    destruct (Legacy.parseToken lib s) as [[t|e']|].
    + rewrite Hthrow in Hrel. discriminate Hrel.
    + exists e'. reflexivity.
    + contradiction.
Qed.

Lemma legacy_refined_witness :
  parseToken reference "2*(3+4)"
  = Some (Ok (OperationToken MUL (NumberToken 2%float) (NumberToken 7%float)))
  /\ exists e', Legacy.parseToken reference "3*-2" = Some (Throw e').
Proof.
  destruct (legacy_refined reference invalid_argument) as [Htree Hthrow];
    [reflexivity|].
  split.
  - apply Htree. vm_compute. reflexivity.
  - apply (Hthrow "3*-2" invalid_argument). vm_compute. reflexivity.
Defined.

(** C10 as stated fails on [-5]: the parser of part_000 throws, the parser
    of main.cpp returns the number -5. *)
Lemma parsers_differ_on_leading_minus :
  Legacy.parseToken reference "-5" = Some (Throw invalid_argument)
  /\ parseToken reference "-5" = Some (Ok (NumberToken (-5)%float)).
Proof.
  split; vm_compute; reflexivity.
Qed.


(** * Further properties of the code *)

(** ** Spaces *)

Lemma remove_spaces_app (a b : string) :
  remove_spaces (a ++ b) = remove_spaces a ++ remove_spaces b.
Proof.
  induction a as [|c a IH]; simpl; [reflexivity|].
  destruct (Ascii.eqb c " "); simpl; rewrite IH; reflexivity.
Qed.

Lemma remove_spaces_occurrences (c : ascii) (s : string) :
  occurrences c (remove_spaces s)
  = if Ascii.eqb c " " then 0 else occurrences c s.
Proof.
  induction s as [|c1 s IH]; simpl; [destruct (Ascii.eqb c " "); reflexivity|].
  destruct (Ascii.eqb_spec c1 " ") as [-> | Hc1].
  - rewrite IH. destruct (Ascii.eqb_spec c " ") as [-> | Hc]; [reflexivity|].
    destruct (Ascii.eqb_spec " " c) as [Heq | _]; [congruence | reflexivity].
  - simpl. rewrite IH.
    destruct (Ascii.eqb_spec c " ") as [-> | Hc]; [|reflexivity].
    destruct (Ascii.eqb_spec c1 " ") as [Heq | _]; [congruence | reflexivity].
Qed.

Lemma remove_spaces_blank (s : string) :
  all_chars (fun c => Ascii.eqb c " ") s = true -> remove_spaces s = "".
Proof.
  induction s as [|c s IH]; simpl; [reflexivity|]. intros H.
  apply andb_true_iff in H. destruct H as [Hc Hs].
  rewrite Hc. apply IH, Hs.
Qed.

Lemma calls_smaller (lib : Library) (s s' : string) :
  calls lib s s' ->
  occurrences "(" s' < occurrences "(" s
  \/ (occurrences "(" s' <= occurrences "(" s /\ length s' < length s).
Proof.
  intros [i j Hgroup | i j token Hgroup _ | i operation _ Hop
          | i operation a _ Hop _].
  - left. pose proof (find_group_occurrences s i j Hgroup). lia.
  - left. apply (newExpression_occurrences lib s i j _ Hgroup).
  - right. pose proof (find_operation_bounds s i operation Hop) as Hi.
    pose proof (occurrences_substring_le "(" s 0 i).
    pose proof (length_prefix s i ltac:(lia)). lia.
  - right. pose proof (find_operation_bounds s i operation Hop) as Hi.
    pose proof (occurrences_suffix_le "(" s (i + 1)).
    pose proof (length_suffix s (i + 1)). lia.
Qed.

Lemma calls_well_founded (lib : Library) :
  well_founded (fun s' s => calls lib s s').
Proof.
  assert (Hacc : forall groups size s,
            occurrences "(" s <= groups -> length s <= size ->
            Acc (fun s' s => calls lib s s') s).
  { induction groups as [groups IHg] using lt_wf_ind.
    induction size as [size IHs] using lt_wf_ind.
    intros s Hg Hs. constructor. intros s' Hcall.
    destruct (calls_smaller lib s s' Hcall) as [Hlt | [Hle Hlt]].
    - apply (IHg (occurrences "(" s') ltac:(lia) (length s')); lia.
    - apply (IHs (length s') ltac:(lia)); lia. }
  intros s. apply (Hacc (occurrences "(" s) (length s)); lia.
Qed.

(** X1. The recursion of [parseToken] is well founded. Each call is made on
    a text with fewer opening parentheses than the caller's, or with no
    more of them and fewer characters: the text of a group and the text
    that replaces it (because [std::to_string] writes no parenthesis), and
    the two operands of a split. So no input sends [parseToken] into an
    endless recursion. How deep the recursion goes, and the stack it
    needs, is not bounded here. *)
Theorem recursion_well_founded (lib : Library) :
  (forall s s',
     calls lib s s' ->
     occurrences "(" s' < occurrences "(" s
     \/ (occurrences "(" s' <= occurrences "(" s /\ length s' < length s))
  /\ well_founded (fun s' s => calls lib s s').
Proof.
  split; [apply calls_smaller | apply calls_well_founded].
Qed.

Lemma recursion_well_founded_witness :
  calls reference "2*(3+4)" "3+4"
  /\ calls reference "2*(3+4)" "2*7.000000"
  /\ calls reference "2*7.000000" "7.000000"
  /\ Acc (fun s' s => calls reference s s') "2*(3+4)".
Proof.
  destruct (recursion_well_founded reference) as [_ Hwf].
  split; [|split; [|split]].
  - apply (calls_group reference "2*(3+4)" 2 6). reflexivity.
  - apply (calls_folded reference "2*(3+4)" 2 6
             (OperationToken SUM (NumberToken 3%float) (NumberToken 4%float)));
      vm_compute; reflexivity.
  - apply (calls_right reference "2*7.000000" 1 MUL (NumberToken 2%float));
      vm_compute; reflexivity.
  - apply Hwf.
Defined.

(** X2. [compileExpression] drops every space before it parses, wherever
    the space stands, also inside a number; no other character is dropped
    (a tab stays). *)
Theorem spaces_are_dropped (lib : Library) :
  (forall a b,
     compileExpression lib (a ++ String " " b) = compileExpression lib (a ++ b))
  /\ (forall s, compileExpression lib (remove_spaces s) = compileExpression lib s)
  /\ (forall s, occurrences " " (remove_spaces s) = 0)
  /\ (forall s c, c <> " "%char ->
                  occurrences c (remove_spaces s) = occurrences c s).
Proof.
  split; [|split; [|split]].
  - intros a b. unfold compileExpression.
    rewrite !remove_spaces_app. reflexivity.
  - intros s. unfold compileExpression. f_equal.
    apply remove_spaces_none.
    induction s as [|c s IH]; simpl; [reflexivity|].
    destruct (Ascii.eqb c " ") eqn:Hc; [exact IH|].
    simpl. rewrite Hc, IH. reflexivity.
  - intros s. rewrite remove_spaces_occurrences. reflexivity.
  - intros s c Hc. rewrite remove_spaces_occurrences.
    apply Ascii.eqb_neq in Hc. rewrite Hc. reflexivity.
Qed.

Lemma spaces_are_dropped_witness :
  compileExpression reference ("1" ++ String " " "2+3")
  = compileExpression reference ("1" ++ "2+3")
  /\ occurrences "009" (remove_spaces ("1 " ++ String "009" "+ 2")) = 1.
Proof.
  destruct (spaces_are_dropped reference) as (Hdrop & _ & _ & Hkeep).
  split; [apply Hdrop | rewrite Hkeep; [reflexivity | discriminate]].
Defined.

(** X3. An expression that is empty or made of spaces only is handed to
    [std::stod] as the empty string: with a [std::stod] that rejects the
    empty string, it throws, and a line [o] followed by such a line, or by
    the end of the input, terminates the process. *)
Theorem blank_expression (lib : Library) (e : exception) :
  std_stod lib "" = Throw e ->
  (forall s,
     all_chars (fun c => Ascii.eqb c " ") s = true ->
     compileExpression lib s = Some (Throw e)
     /\ forall cin, main lib ("o" :: s :: cin) = ([Welcome; Prompt], Terminated e))
  /\ main lib ["o"] = ([Welcome; Prompt], Terminated e).
Proof.
  intros Hempty.
  assert (Hparse : parseToken lib "" = Some (Throw e)).
  { rewrite (parse_literal lib "") by reflexivity.
    unfold literal, parseNumber. simpl. rewrite Hempty. reflexivity. }
  split.
  - intros s Hs.
    assert (Hc : compileExpression lib s = Some (Throw e)).
    { unfold compileExpression. rewrite (remove_spaces_blank s Hs). exact Hparse. }
    split; [exact Hc|].
    intros cin. unfold main. cbn [main_loop String.eqb Ascii.eqb Bool.eqb].
    unfold operation_action. rewrite Hc. reflexivity.
  - unfold main. cbn [main_loop String.eqb Ascii.eqb Bool.eqb].
    unfold operation_action, compileExpression. simpl remove_spaces.
    rewrite Hparse. reflexivity.
Qed.

Lemma blank_expression_witness :
  compileExpression reference "   " = Some (Throw invalid_argument)
  /\ main reference ["o"; ""; "q"] = ([Welcome; Prompt], Terminated invalid_argument)
  /\ main reference ["o"] = ([Welcome; Prompt], Terminated invalid_argument).
Proof.
  destruct (blank_expression reference invalid_argument) as [Hblank Hend];
    [reflexivity|].
  split; [|split].
  - apply (Hblank "   "). reflexivity.
  - apply (Hblank ""). reflexivity.
  - exact Hend.
Defined.

(** ** The shape of a compiled tree *)

Lemma matching_close_prefix (x y : string) :
  forall j open close,
    matching_close (x ++ y) j open close = None ->
    matching_close x j open close = None.
Proof.
  induction x as [|c x IH]; intros j open close H; [reflexivity|].
  simpl in *. destruct (Z.eqb _ _); [discriminate|]. apply IH, H.
Qed.

Lemma find_group_prefix (x y : string) :
  forall i, find_group (x ++ y) i = None -> find_group x i = None.
Proof.
  induction x as [|c x IH]; intros i H; [reflexivity|].
  simpl in *. destruct (Ascii.eqb c "("); [|apply IH, H].
  destruct (matching_close (x ++ y) (S i) 1 0) eqn:Hm; [discriminate|].
  rewrite (matching_close_prefix x y _ _ _ Hm). apply IH, H.
Qed.

Lemma find_group_index (rest : string) :
  forall i i', find_group rest i = None -> find_group rest i' = None.
Proof.
  assert (Hm : forall rest j j' open close,
            matching_close rest j open close = None ->
            matching_close rest j' open close = None).
  { induction rest0 as [|c r IH]; intros j j' open close H; [reflexivity|].
    simpl in *. destruct (Z.eqb _ _); [discriminate|]. eapply IH, H. }
  induction rest as [|c rest IH]; intros i i' H; [reflexivity|].
  simpl in *. destruct (Ascii.eqb c "("); [|eapply IH, H].
  destruct (matching_close rest (S i) 1 0) eqn:Hc; [discriminate|].
  rewrite (Hm rest _ (S i') _ _ Hc). eapply IH, H.
Qed.

Lemma find_group_suffix (s : string) :
  forall k, find_group s 0 = None -> find_group (substr_from s k) 0 = None.
Proof.
  induction s as [|c s IH]; intros k H.
  - destruct k; reflexivity.
  - destruct k as [|k]; [rewrite substr_from_0; exact H|].
    rewrite substr_from_cons. apply IH.
    simpl in H. destruct (Ascii.eqb c "(").
    + destruct (matching_close s 1 1 0); [discriminate|].
      apply (find_group_index s 1 0 H).
    + apply (find_group_index s 1 0 H).
Qed.

Lemma find_group_left (s : string) (i : nat) :
  find_group s 0 = None -> find_group (substring 0 i s) 0 = None.
Proof.
  intros H. rewrite (prefix_suffix s i) in H.
  apply (find_group_prefix _ _ 0 H).
Qed.

(** A place that may split the left or the right part may split the
    whole. *)
Lemma splits_at_left (s : string) (i : nat) (q : Z) (k : nat) :
  splits_at (substring 0 i s) q k -> splits_at s q k /\ k < i.
Proof.
  intros (c & Hget & Hprio & Hnot).
  pose proof (get_lt _ _ _ Hget) as Hk.
  assert (Hs : get k s = Some c).
  { rewrite (prefix_suffix s i). rewrite get_prefix; assumption. }
  split.
  - exists c. auto.
  - pose proof (occurrences_substring_le "(" s 0 i) as _.
    destruct (Nat.le_gt_cases i (length s)) as [Hle | Hgt].
    + rewrite (length_prefix s i Hle) in Hk. exact Hk.
    + apply get_lt in Hs. lia.
Qed.

Lemma splits_at_right (s : string) (i : nat) (q : Z) (k : nat) :
  i < length s ->
  splits_at (substr_from s (i + 1)) q k -> splits_at s q (i + 1 + k).
Proof.
  intros Hi (c & Hget & Hprio & _).
  exists c. split; [|split; [exact Hprio | lia]].
  rewrite (prefix_suffix s (i + 1)).
  rewrite <- (length_prefix s (i + 1)) at 1 by lia.
  rewrite get_append. exact Hget.
Qed.

Lemma operation_priority (o : Operation) :
  o <> NONE -> (1 <= getPriority o <= 3)%Z.
Proof. destruct o; simpl; intros H; try lia. congruence. Qed.

Section Trees.

Variable lib : Library.

Lemma compiled_tree_invariant :
  forall groups size s t,
    parseToken_rec lib groups size s = Some (Ok t) ->
    ordered t
    /\ (forall o, In o (operations t) -> o <> NONE)
    /\ (find_group s 0 = None ->
        forall o, In o (operations t) ->
                  exists k, splits_at s (getPriority o) k).
Proof.
  induction groups as [groups IHg] using lt_wf_ind.
  induction size as [size IHs] using lt_wf_ind.
  intros s t Hrun. rewrite parseToken_rec_eq in Hrun.
  destruct (find_group s 0) as [[i j]|] eqn:Hgroup.
  - destruct groups as [|g]; [discriminate|]. cbv zeta in Hrun.
    destruct (parseToken_rec lib g _ (substring (i + 1) (j - i - 1) s))
      as [[token|e]|]; try discriminate.
    cbn [bind] in Hrun.
    destruct (IHg g (Nat.lt_succ_diag_r g) _ _ _ Hrun) as (Ho & Hn & _).
    repeat split; auto. intros H. discriminate H.
  - pose proof (find_operation_spec s) as Hspec.
    destruct (find_operation s) as [[i operation]|] eqn:Hop.
    2:{ destruct (parseNumber lib s); [|discriminate].
        injection Hrun as <-. simpl.
        split; [exact I|]. split; [intros o []|]. intros _ o []. }
    pose proof (find_operation_bounds s i operation Hop) as Hi.
    destruct Hspec as (p & c & Hp & Hc & Hoc & Hsplit & Hfirst & Hlevel).
    assert (Hprio : getPriority operation = p).
    { destruct Hsplit as (c' & Hc' & Hp' & _). congruence. }
    destruct size as [|n]; [discriminate|].
    destruct (parseToken_rec lib groups n (substring 0 i s))
      as [[a|e]|] eqn:Ha; try discriminate.
    cbn [bind] in Hrun.
    destruct (parseToken_rec lib groups n (substr_from s (i + 1)))
      as [[b|e]|] eqn:Hb; try discriminate.
    injection Hrun as <-.
    destruct (IHs n (Nat.lt_succ_diag_r n) _ _ Ha) as (Hoa & Hna & Hsa).
    destruct (IHs n (Nat.lt_succ_diag_r n) _ _ Hb) as (Hob & Hnb & Hsb).
    specialize (Hsa (find_group_left s i Hgroup)).
    specialize (Hsb (find_group_suffix s (i + 1) Hgroup)).
    assert (Hleft : forall o, In o (operations a) ->
                    exists k, splits_at s (getPriority o) k /\ k < i).
    { intros o Ho. destruct (Hsa o Ho) as [k Hk]. exists k.
      apply splits_at_left, Hk. }
    assert (Hright : forall o, In o (operations b) ->
                     exists k, splits_at s (getPriority o) k).
    { intros o Ho. destruct (Hsb o Ho) as [k Hk]. exists (i + 1 + k).
      apply splits_at_right; assumption. }
    split; [|split].
    + simpl. repeat split; auto.
      * intros o Ho. destruct (Hleft o Ho) as (k & Hk & Hlt).
        pose proof (operation_priority o (Hna o Ho)) as Hq.
        destruct (Z.lt_trichotomy (getPriority o) p) as [Hlo | [Heq | Hhi]].
        -- exfalso. apply (Hlevel (getPriority o) k); [lia | exact Hk].
        -- exfalso. apply (Hfirst k Hlt). rewrite <- Heq. exact Hk.
        -- lia.
      * intros o Ho. destruct (Hright o Ho) as (k & Hk).
        pose proof (operation_priority o (Hnb o Ho)) as Hq.
        destruct (Z.lt_ge_cases (getPriority o) p) as [Hlo | Hhi]; [|lia].
        exfalso. apply (Hlevel (getPriority o) k); [lia | exact Hk].
    + simpl. intros o [<- | Ho].
      * intros Hnone. rewrite Hnone in Hprio. simpl in Hprio. lia.
      * apply in_app_or in Ho. destruct Ho; auto.
    + intros _ o Ho. simpl in Ho. destruct Ho as [<- | Ho].
      * exists i. rewrite Hprio. exact Hsplit.
      * apply in_app_or in Ho. destruct Ho as [Ho | Ho].
        -- destruct (Hleft o Ho) as (k & Hk & _). eauto.
        -- apply Hright, Ho.
Qed.

End Trees.

(** X4. No tree that [parseToken] returns holds an operation node of kind
    [NONE]: on a compiled tree the [default] branch of
    [OperationToken::resolve] is never taken. *)
Theorem compiled_tree_has_no_NONE (lib : Library) (s : string) (t : Token) :
  parseToken lib s = Some (Ok t) ->
  forall o, In o (operations t) -> o <> NONE.
Proof.
  intros H. apply (compiled_tree_invariant lib _ _ _ _ H).
Qed.

Lemma compiled_tree_has_no_NONE_witness :
  parseToken reference "2+3*4"
  = Some (Ok (OperationToken SUM (NumberToken 2%float)
                (OperationToken MUL (NumberToken 3%float)
                   (NumberToken 4%float))))
  /\ SUM <> NONE /\ MUL <> NONE.
Proof.
  assert (H : parseToken reference "2+3*4"
    = Some (Ok (OperationToken SUM (NumberToken 2%float)
                  (OperationToken MUL (NumberToken 3%float)
                     (NumberToken 4%float)))))
    by (vm_compute; reflexivity).
  split; [exact H|]. split.
  - apply (compiled_tree_has_no_NONE reference _ _ H). simpl. auto.
  - apply (compiled_tree_has_no_NONE reference _ _ H). simpl. auto.
Defined.

(** X5. Every tree that [parseToken] returns respects the priorities: an
    operation node binds no tighter than any node below it, and strictly
    looser than every node of its left operand. *)
Theorem precedence_ordered (lib : Library) (s : string) (t : Token) :
  parseToken lib s = Some (Ok t) -> ordered t.
Proof.
  intros H. apply (compiled_tree_invariant lib _ _ _ _ H).
Qed.

Lemma precedence_ordered_witness :
  ordered
    (OperationToken SUM
       (OperationToken MUL (NumberToken 2%float) (NumberToken 3%float))
       (OperationToken MIN
          (OperationToken POW (NumberToken 4%float) (NumberToken 5%float))
          (NumberToken 6%float))).
Proof.
  apply (precedence_ordered reference "2*3+4^5-6"). vm_compute. reflexivity.
Defined.

(** ** The group that is folded *)

Lemma counter_0 (open close : Z) (rest : string) :
  counter open close rest 0 = (open - close)%Z.
Proof. unfold counter. rewrite substring_0_0. simpl. lia. Qed.

Lemma counter_step (open close : Z) (ch : ascii) (rest : string) (k : nat) :
  counter open close (String ch rest) (S k)
  = counter (if Ascii.eqb ch "(" then open + 1 else open)%Z
      (if Ascii.eqb ch "(" then close
       else if Ascii.eqb ch ")" then close + 1 else close)%Z
      rest k.
Proof.
  unfold counter.
  change (substring 0 (S k) (String ch rest))
    with (String ch (substring 0 k rest)).
  rewrite !occurrences_cons.
  destruct (Ascii.eqb ch "(") eqn:Ho, (Ascii.eqb ch ")") eqn:Hc; try lia.
  apply Ascii.eqb_eq in Ho, Hc. congruence.
Qed.

(** Where the inner loop stops, a closing parenthesis stands, the counters
    are equal, and they were not equal before. *)
Lemma matching_close_sound (rest : string) :
  forall j0 open close j,
    (close < open)%Z ->
    matching_close rest j0 open close = Some j ->
    exists m, j = j0 + m /\ get m rest = Some ")"%char
              /\ counter open close rest (S m) = 0%Z
              /\ forall k, k <= m -> counter open close rest k <> 0%Z.
Proof.
  induction rest as [|ch rest IH]; intros j0 open close j Hlt H;
    [discriminate|].
  simpl in H.
  destruct (Z.eqb_spec
              (if Ascii.eqb ch "(" then open + 1 else open)%Z
              (if Ascii.eqb ch "(" then close
               else if Ascii.eqb ch ")" then close + 1 else close)%Z)
    as [Heq | Hne].
  - injection H as <-. exists 0. split; [lia|]. split; [|split].
    + simpl. destruct (Ascii.eqb_spec ch "(") as [-> | Hopen]; [lia|].
      destruct (Ascii.eqb_spec ch ")") as [-> | Hclose]; [reflexivity | lia].
    + rewrite counter_step, counter_0. lia.
    + intros k Hk. replace k with 0 by lia. rewrite counter_0. lia.
  - apply IH in H.
    + destruct H as (m & -> & Hget & Hzero & Hpos).
      exists (S m). split; [lia|]. split; [exact Hget|]. split.
      * rewrite counter_step. exact Hzero.
      * intros [|k] Hk; [rewrite counter_0; lia|].
        rewrite counter_step. apply Hpos. lia.
    + destruct (Ascii.eqb ch "("); [lia|].
      destruct (Ascii.eqb ch ")"); lia.
Qed.

(** Where the inner loop finds nothing, the counters never meet. *)
Lemma matching_close_none (rest : string) :
  forall j0 open close,
    matching_close rest j0 open close = None ->
    forall m, m < length rest -> counter open close rest (S m) <> 0%Z.
Proof.
  induction rest as [|ch rest IH]; intros j0 open close H m Hm;
    [simpl in Hm; lia|].
  simpl in H. rewrite counter_step.
  destruct (Z.eqb_spec
              (if Ascii.eqb ch "(" then open + 1 else open)%Z
              (if Ascii.eqb ch "(" then close
               else if Ascii.eqb ch ")" then close + 1 else close)%Z)
    as [Heq | Hne]; [discriminate|].
  destruct m as [|m]; [rewrite counter_0; lia|].
  eapply IH; [exact H|]. simpl in Hm. lia.
Qed.

Lemma depth_counter (rest : string) (k : nat) :
  depth (String "(" rest) 0 k = counter 1 0 rest k.
Proof.
  unfold depth, counter.
  change (substring 0 (S k) (String "(" rest))
    with (String "(" (substring 0 k rest)).
  rewrite !occurrences_cons. simpl Ascii.eqb. cbv iota. lia.
Qed.

Lemma find_group_sound (rest : string) :
  forall i0 i j,
    find_group rest i0 = Some (i, j) ->
    exists a m,
      i = i0 + a /\ j = i0 + a + S m
      /\ get a rest = Some "("%char
      /\ get (a + S m) rest = Some ")"%char
      /\ depth rest a (S m) = 0%Z
      /\ (forall k, k <= m -> depth rest a k <> 0%Z)
      /\ (forall a' m', a' < a -> get a' rest = Some "("%char ->
                        a' + S m' < length rest ->
                        depth rest a' (S m') <> 0%Z).
Proof.
  induction rest as [|ch rest IH]; intros i0 i j H; [discriminate|].
  assert (Hlater : forall (Hearly : ch = "("%char ->
                      forall m', S m' < length (String ch rest) ->
                                 depth (String ch rest) 0 (S m') <> 0%Z),
            find_group rest (S i0) = Some (i, j) ->
            exists a m,
              i = i0 + a /\ j = i0 + a + S m
              /\ get a (String ch rest) = Some "("%char
              /\ get (a + S m) (String ch rest) = Some ")"%char
              /\ depth (String ch rest) a (S m) = 0%Z
              /\ (forall k, k <= m -> depth (String ch rest) a k <> 0%Z)
              /\ (forall a' m', a' < a ->
                    get a' (String ch rest) = Some "("%char ->
                    a' + S m' < length (String ch rest) ->
                    depth (String ch rest) a' (S m') <> 0%Z)).
  { intros Hearly H'. apply IH in H'.
    destruct H' as (a & m & -> & -> & Hopen & Hclose & Hzero & Hpos & Hbefore).
    exists (S a), m. split; [lia|]. split; [lia|].
    split; [exact Hopen|]. split; [exact Hclose|].
    split; [exact Hzero|]. split; [exact Hpos|].
    intros [|a'] m' Hlt Hget Hlen.
    - simpl in Hget. injection Hget as ->. apply Hearly; [reflexivity|].
      simpl in *. lia.
    - apply (Hbefore a' m'); [lia | exact Hget | simpl in Hlen; lia]. }
  simpl in H.
  destruct (Ascii.eqb_spec ch "(") as [-> | Hch].
  - destruct (matching_close rest (S i0) 1 0) as [j'|] eqn:Hm.
    + injection H as <- <-.
      apply matching_close_sound in Hm; [|lia].
      destruct Hm as (m & -> & Hget & Hzero & Hpos).
      exists 0, m. split; [lia|]. split; [lia|].
      split; [reflexivity|]. split; [exact Hget|].
      split; [rewrite depth_counter; exact Hzero|]. split.
      * intros k Hk. rewrite depth_counter.
        destruct k as [|k]; [rewrite counter_0; lia|].
        apply Hpos. lia.
      * intros a' m' Hlt. lia.
    + apply Hlater; [|exact H].
      intros _ m' Hlen. rewrite depth_counter.
      apply (matching_close_none rest _ _ _ Hm). simpl in Hlen. lia.
  - apply Hlater; [|exact H]. intros Heq. contradiction.
Qed.

Lemma substring_empty (n m : nat) : substring n m "" = "".
Proof. destruct n, m; reflexivity. Qed.

Lemma substring_add (s : string) :
  forall n a b,
    substring n (a + b) s = substring n a s ++ substring (n + a) b s.
Proof.
  induction s as [|c s IH]; intros n a b.
  - rewrite !substring_empty. reflexivity.
  - destruct n as [|n]; [|simpl; apply IH].
    destruct a as [|a]; [reflexivity|].
    simpl. f_equal. apply (IH 0 a b).
Qed.

Lemma substring_one (s : string) :
  forall n c, get n s = Some c -> substring n 1 s = String c "".
Proof.
  induction s as [|c1 s IH]; intros [|n] c H; simpl in *; try discriminate.
  - injection H as ->. rewrite substring_0_0. reflexivity.
  - apply IH, H.
Qed.

(** Where the outer loop finds nothing, no counter started at an opening
    parenthesis returns to zero. *)
Lemma find_group_none_sound (rest : string) :
  forall i0,
    find_group rest i0 = None ->
    forall a m, get a rest = Some "("%char ->
                a + S m < length rest ->
                depth rest a (S m) <> 0%Z.
Proof.
  induction rest as [|ch rest IH]; intros i0 H a m Hget Hlen;
    [destruct a; discriminate|].
  assert (Hnext : find_group rest (S i0) = None
                  /\ (ch = "("%char ->
                      matching_close rest (S i0) 1 0 = None)).
  { simpl in H. destruct (Ascii.eqb_spec ch "(") as [-> | Hch].
    - destruct (matching_close rest (S i0) 1 0); [discriminate|]. auto.
    - split; [exact H|]. intros Heq. contradiction. }
  destruct Hnext as [Hrest Hfirst].
  destruct a as [|a].
  - simpl in Hget. injection Hget as ->. rewrite depth_counter.
    apply (matching_close_none rest _ _ _ (Hfirst eq_refl)).
    simpl in Hlen. lia.
  - apply (IH (S i0) Hrest a m Hget). simpl in Hlen. lia.
Qed.

(** The counter started at [i] returns to zero for the first time at one
    place only. *)
Lemma closes_unique (s : string) (i j j' : nat) :
  closes s i j -> closes s i j' -> j = j'.
Proof.
  intros (Hij & _ & Hzero & Hpos) (Hij' & _ & Hzero' & Hpos').
  destruct (Nat.lt_trichotomy j j') as [Hlt | [Heq | Hgt]]; [|exact Heq|].
  - exfalso. apply (Hpos' (j - i)); [lia | exact Hzero].
  - exfalso. apply (Hpos (j' - i)); [lia | exact Hzero'].
Qed.

Lemma find_group_first_closed (s : string) (i j : nat) :
  find_group s 0 = Some (i, j) ->
  get i s = Some "("%char
  /\ get j s = Some ")"%char
  /\ closes s i j
  /\ (forall i' j', i' < i -> get i' s = Some "("%char -> ~ closes s i' j').
Proof.
  intros H. apply find_group_sound in H.
  destruct H as (a & m & -> & -> & Hopen & Hclose & Hzero & Hpos & Hbefore).
  simpl Nat.add.
  pose proof (get_lt _ _ _ Hclose) as Hlen.
  split; [exact Hopen|]. split; [exact Hclose|]. split.
  - unfold closes. replace (a + S m - a) with (S m) by lia.
    split; [lia|]. split; [exact Hlen|]. split; [exact Hzero|].
    intros k Hk. apply Hpos. lia.
  - intros i' j' Hlt Hget (Hij & Hj & Hz & _).
    apply (Hbefore i' (j' - i' - 1) Hlt Hget); [lia|].
    replace (S (j' - i' - 1)) with (j' - i') by lia. exact Hz.
Qed.

Lemma find_group_unclosed (s : string) :
  find_group s 0 = None ->
  forall i j, get i s = Some "("%char -> ~ closes s i j.
Proof.
  intros H i j Hget (Hij & Hj & Hzero & _).
  apply (find_group_none_sound s 0 H i (j - i - 1) Hget); [lia|].
  replace (S (j - i - 1)) with (j - i) by lia. exact Hzero.
Qed.

(** X6. The pair of places at which [parseToken] folds a group, and when it
    folds one. The outer loop stops at [(i, j)] exactly when an opening
    parenthesis stands at [i], the nesting counter started at [i] returns
    to zero for the first time at [j], and the counter of no opening
    parenthesis before [i] ever returns to zero: opening parentheses that
    are never closed are passed over, and the first one that is closed is
    folded. No group is folded exactly when no opening parenthesis is
    closed. At [j] stands a closing parenthesis, and the text cut out holds
    as many opening as closing parentheses. *)
Theorem folded_group_is_first_closed (s : string) :
  (forall i j,
     find_group s 0 = Some (i, j) <->
     get i s = Some "("%char
     /\ closes s i j
     /\ (forall i' j', i' < i -> get i' s = Some "("%char -> ~ closes s i' j'))
  /\ (find_group s 0 = None <->
      forall i j, get i s = Some "("%char -> ~ closes s i j)
  /\ (forall i j,
        find_group s 0 = Some (i, j) ->
        get j s = Some ")"%char
        /\ occurrences "(" (substring (i + 1) (j - i - 1) s)
           = occurrences ")" (substring (i + 1) (j - i - 1) s)).
Proof.
  assert (Hcomplete : forall i j,
            get i s = Some "("%char -> closes s i j ->
            (forall i' j', i' < i -> get i' s = Some "("%char ->
                           ~ closes s i' j') ->
            find_group s 0 = Some (i, j)).
  { intros i j Hget Hcloses Hbefore.
    destruct (find_group s 0) as [[i0 j0]|] eqn:Hfound.
    - destruct (find_group_first_closed s i0 j0 Hfound)
        as (Hget0 & _ & Hcloses0 & Hbefore0).
      destruct (Nat.lt_trichotomy i i0) as [Hlt | [Heq | Hgt]].
      + exfalso. apply (Hbefore0 i j Hlt Hget Hcloses).
      + subst i0. rewrite (closes_unique s i j j0 Hcloses Hcloses0).
        reflexivity.
      + exfalso. apply (Hbefore i0 j0 Hgt Hget0 Hcloses0).
    - exfalso. apply (find_group_unclosed s Hfound i j Hget Hcloses). }
  split; [|split].
  - intros i j. split.
    + intros H. destruct (find_group_first_closed s i j H)
        as (Hget & _ & Hcloses & Hbefore). auto.
    + intros (Hget & Hcloses & Hbefore). apply Hcomplete; assumption.
  - split; [apply find_group_unclosed|].
    intros Hnone. destruct (find_group s 0) as [[i j]|] eqn:Hfound;
      [|reflexivity].
    destruct (find_group_first_closed s i j Hfound) as (Hget & _ & Hcloses & _).
    exfalso. apply (Hnone i j Hget Hcloses).
  - intros i j H.
    destruct (find_group_first_closed s i j H) as (Hopen & Hclose & Hcloses & _).
    split; [exact Hclose|].
    destruct Hcloses as (Hij & Hj & Hzero & _).
    unfold depth in Hzero.
    replace (S (j - i)) with (1 + ((j - i - 1) + 1)) in Hzero by lia.
    rewrite (substring_add s i 1 (j - i - 1 + 1)) in Hzero.
    rewrite (substring_add s (i + 1) (j - i - 1) 1) in Hzero.
    rewrite (substring_one s i _ Hopen) in Hzero.
    replace (i + 1 + (j - i - 1)) with j in Hzero by lia.
    rewrite (substring_one s j _ Hclose) in Hzero.
    simpl append in Hzero.
    rewrite !occurrences_cons, !occurrences_app, !occurrences_cons in Hzero.
    cbn [occurrences Ascii.eqb Bool.eqb] in Hzero. lia.
Qed.

Lemma folded_group_is_first_closed_witness :
  find_group "((2*((1+2)-3)" 0 = Some (4, 12)
  /\ closes "((2*((1+2)-3)" 4 12
  /\ ~ closes "((2*((1+2)-3)" 0 12
  /\ find_group "((1+2" 0 = None
  /\ ~ closes "((1+2" 1 5
  /\ occurrences "(" "(1+2)-3" = occurrences ")" "(1+2)-3".
Proof.
  destruct (folded_group_is_first_closed "((2*((1+2)-3)")
    as (Hfound & _ & Hgroup).
  destruct (folded_group_is_first_closed "((1+2") as (_ & Hnone & _).
  destruct (proj1 (Hfound 4 12) eq_refl) as (_ & Hcloses & Hbefore).
  split; [reflexivity|]. split; [exact Hcloses|]. split; [|split; [|split]].
  - apply Hbefore; [lia | reflexivity].
  - reflexivity.
  - apply (proj1 Hnone eq_refl 1 5). reflexivity.
  - apply (Hgroup 4 12 eq_refl).
Defined.

Lemma occurrences_zero_cons (c ch : ascii) (x : string) :
  occurrences c (String ch x) = 0 ->
  Ascii.eqb ch c = false /\ occurrences c x = 0.
Proof.
  rewrite occurrences_cons. destruct (Ascii.eqb ch c); [lia|]. auto.
Qed.

Lemma matching_close_plain (x post : string) :
  occurrences "(" x = 0 -> occurrences ")" x = 0 ->
  forall j, matching_close (x ++ String ")" post) j 1 0 = Some (j + length x).
Proof.
  induction x as [|ch x IH]; intros Hopen Hclose j.
  - simpl. f_equal. lia.
  - apply occurrences_zero_cons in Hopen, Hclose.
    destruct Hopen as [Ho Hopen]. destruct Hclose as [Hc Hclose].
    simpl. rewrite Ho, Hc. simpl. rewrite (IH Hopen Hclose). f_equal. lia.
Qed.

Lemma find_group_skip (pre r : string) :
  occurrences "(" pre = 0 ->
  forall i0, find_group (pre ++ r) i0 = find_group r (i0 + length pre).
Proof.
  induction pre as [|ch pre IH]; intros Hopen i0.
  - simpl. f_equal. lia.
  - apply occurrences_zero_cons in Hopen. destruct Hopen as [Ho Hopen].
    simpl. rewrite Ho, (IH Hopen). f_equal. lia.
Qed.

Lemma substring_skip (pre r : string) (n m : nat) :
  substring (length pre + n) m (pre ++ r) = substring n m r.
Proof. induction pre as [|ch pre IH]; simpl; auto. Qed.

Lemma plain_group_step (lib : Library) (pre x post : string) :
  occurrences "(" pre = 0 ->
  occurrences "(" x = 0 ->
  occurrences ")" x = 0 ->
  parseToken lib (pre ++ String "(" (x ++ String ")" post)) =
  (token <- parseToken lib x ;;
   parseToken lib (pre ++ std_to_string lib (resolve lib token) ++ post)).
Proof.
  intros Hpre Hopen Hclose.
  apply (parse_group lib _ (length pre) (length pre + length x + 1)).
  - rewrite (find_group_skip pre _ Hpre). simpl.
    rewrite (matching_close_plain x post Hopen Hclose). f_equal. f_equal. lia.
  - replace (length pre + length x + 1 - length pre - 1) with (length x) by lia.
    rewrite substring_skip. simpl. apply prefix_of_append.
  - apply prefix_of_append.
  - replace (pre ++ String "(" (x ++ String ")" post))
      with ((pre ++ String "(" x) ++ String ")" post)
      by (rewrite append_assoc; reflexivity).
    replace (length pre + length x + 1 + 1)
      with (length (pre ++ String "(" x) + 1)
      by (rewrite length_append; simpl; lia).
    apply suffix_after.
Qed.

(** X7. A group whose text holds no parenthesis, behind a text without
    opening parenthesis: its tree is compiled and evaluated, and what is
    compiled in the end is the text around the group with the printed
    value in its place. The value of the group thus passes through
    [std::to_string] and [std::stod], and a text that stands directly
    before or behind the group is joined to the printed number. *)
Theorem plain_group_folded (lib : Library) (pre x post : string) :
  occurrences "(" pre = 0 ->
  occurrences "(" x = 0 ->
  occurrences ")" x = 0 ->
  parseToken lib (pre ++ String "(" (x ++ String ")" post)) =
  (token <- parseToken lib x ;;
   parseToken lib (pre ++ std_to_string lib (resolve lib token) ++ post)).
Proof. apply plain_group_step. Qed.

Lemma plain_group_folded_witness :
  parseToken reference "(0.1234567)" = parseToken reference "0.123457"
  /\ parseToken reference "2(3)" = parseToken reference "23.000000".
Proof.
  split.
  - etransitivity.
    + exact (plain_group_folded reference "" "0.1234567" ""
               eq_refl eq_refl eq_refl).
    + vm_compute. reflexivity.
  - etransitivity.
    + exact (plain_group_folded reference "2" "3" "" eq_refl eq_refl eq_refl).
    + vm_compute. reflexivity.
Defined.

(** ** Operators without an operand *)

Lemma suffix_of_longer (x y : string) :
  forall k, k <= length x -> substr_from (x ++ y) k = substr_from x k ++ y.
Proof.
  induction x as [|c x IH]; intros k Hk.
  - simpl in Hk. replace k with 0 by lia. rewrite !substr_from_0. reflexivity.
  - destruct k as [|k]; [rewrite !substr_from_0; reflexivity|].
    simpl append. rewrite !substr_from_cons. apply IH. simpl in Hk. lia.
Qed.

Lemma prefix_of_longer (x y : string) :
  forall k, k <= length x -> substring 0 k (x ++ y) = substring 0 k x.
Proof.
  induction x as [|c x IH]; intros [|k] Hk; simpl in *; try reflexivity;
    try lia.
  - destruct y; reflexivity.
  - f_equal. apply IH. lia.
Qed.

Lemma parse_empty (lib : Library) (e : exception) :
  std_stod lib "" = Throw e -> parseToken lib "" = Some (Throw e).
Proof.
  intros H. rewrite (parse_literal lib "") by reflexivity.
  unfold literal, parseNumber. simpl. rewrite H. reflexivity.
Qed.

Section Operands.

Variable lib : Library.
Variables e0 e1 : exception.
Hypothesis Hempty : std_stod lib "" = Throw e0.

Lemma trailing_operator_rec (c : ascii) :
  std_stod lib "-" = Throw e1 ->
  getOperationFromChar c <> NONE ->
  forall g x,
    occurrences "(" x <= g ->
    exists e, parseToken lib (x ++ String c "") = Some (Throw e).
Proof.
  intros Hminus Hc.
  induction g as [g IHg] using lt_wf_ind.
  induction x as [x IH] using (well_founded_induction
    (Wf_nat.well_founded_ltof _ length)).
  intros Hg.
  assert (Hlast : get (length x) (x ++ String c "") = Some c).
  { rewrite <- (Nat.add_0_r (length x)) at 1. apply get_append. }
  pose proof (find_operation_spec (x ++ String c "")) as Hspec.
  rewrite parseToken_unfold.
  destruct (find_group (x ++ String c "") 0) as [[i j]|] eqn:Hgroup.
  - cbv zeta.
    destruct (parseToken_total lib
                (substring (i + 1) (j - i - 1) (x ++ String c "")))
      as [[token|e] Htoken]; rewrite Htoken; cbn [bind]; [|eauto].
    pose proof (newExpression_occurrences lib _ _ _ (resolve lib token)
                  Hgroup) as Hocc.
    pose proof (find_group_bounds _ _ _ _ Hgroup) as (_ & Hij & Hj & _).
    rewrite length_append in Hj. simpl in Hj.
    assert (Hjx : j < length x).
    { destruct (find_group_sound _ _ _ _ Hgroup)
        as (a & m & _ & Hjm & _ & Hclose & _).
      simpl in Hjm. rewrite <- Hjm in Hclose.
      destruct (Nat.eq_dec j (length x)) as [-> | Hne]; [|lia].
      rewrite Hlast in Hclose. injection Hclose as ->.
      exfalso. apply Hc. reflexivity. }
    rewrite prefix_of_longer, suffix_of_longer in Hocc |- * by lia.
    rewrite <- !append_assoc in Hocc |- *.
    rewrite !(occurrences_app _ _ (String c "")) in Hocc.
    apply (IHg (occurrences "(" x - 1)); lia.
  - destruct (find_operation (x ++ String c "")) as [[i operation]|] eqn:Hop.
    + pose proof (find_operation_bounds _ _ _ Hop) as Hi.
      rewrite length_append in Hi. simpl in Hi. cbv zeta.
      destruct (parseToken_total lib (substring 0 i (x ++ String c "")))
        as [[a|e] Ha]; rewrite Ha; cbn [bind]; [|eauto].
      assert (Hright : exists e,
                parseToken lib (substr_from (x ++ String c "") (i + 1))
                = Some (Throw e)).
      { destruct (Nat.eq_dec i (length x)) as [-> | Hne].
        - rewrite suffix_after. exists e0. apply parse_empty, Hempty.
        - rewrite suffix_of_longer by lia. apply IH.
          + unfold Wf_nat.ltof. rewrite length_suffix. lia.
          + pose proof (occurrences_suffix_le "(" x (i + 1)). lia. }
      destruct Hright as [e Hright]. rewrite Hright. cbn [bind]. eauto.
    + pose proof (priority_range c Hc) as Hp.
      destruct x as [|c0 x].
      * destruct (ascii_dec c "-") as [-> | Hne].
        -- exists e1. unfold parseNumber. simpl. rewrite Hminus. reflexivity.
        -- exfalso. apply (Hspec (getPriority (getOperationFromChar c)) 0 Hp).
           exists c. repeat split; auto. intros [_ Heq]. contradiction.
      * exfalso.
        apply (Hspec (getPriority (getOperationFromChar c))
                 (length (String c0 x)) Hp).
        exists c. repeat split; auto. intros [Hzero _]. discriminate.
Qed.

Lemma leading_operator_rec (c : ascii) :
  getOperationFromChar c <> NONE ->
  c <> "-"%char ->
  forall g r,
    occurrences "(" r <= g ->
    exists e,
      parseToken lib (String c r) = Some (Throw e)
      /\ (occurrences "(" r = 0 -> e = e0).
Proof.
  intros Hc Hminus.
  induction g as [g IHg] using lt_wf_ind.
  induction r as [r IH] using (well_founded_induction
    (Wf_nat.well_founded_ltof _ length)).
  intros Hg.
  pose proof (find_operation_spec (String c r)) as Hspec.
  pose proof (priority_range c Hc) as Hp.
  rewrite parseToken_unfold.
  destruct (find_group (String c r) 0) as [[i j]|] eqn:Hgroup.
  - pose proof (newExpression_occurrences lib _ _ _ 0%float Hgroup) as Hsome.
    assert (Hopen : occurrences "(" r <> 0).
    { rewrite occurrences_cons, (operator_not_open c Hc) in Hsome. lia. }
    cbv zeta.
    destruct (parseToken_total lib
                (substring (i + 1) (j - i - 1) (String c r)))
      as [[token|e] Htoken]; rewrite Htoken; cbn [bind].
    2:{ exists e. split; [reflexivity | intros H; contradiction]. }
    pose proof (newExpression_occurrences lib _ _ _ (resolve lib token)
                  Hgroup) as Hocc.
    pose proof (find_group_bounds _ _ _ _ Hgroup) as (_ & _ & _ & Hget).
    rewrite Nat.sub_0_r in Hget.
    destruct i as [|i].
    { simpl in Hget. injection Hget as ->. exfalso. apply Hc. reflexivity. }
    change (substring 0 (S i) (String c r))
      with (String c (substring 0 i r)) in Hocc |- *.
    simpl append in Hocc |- *.
    rewrite !occurrences_cons, (operator_not_open c Hc) in Hocc.
    destruct (IHg (occurrences "(" r - 1) ltac:(lia)
                (substring 0 i r ++ std_to_string lib (resolve lib token)
                 ++ substr_from (String c r) (j + 1)) ltac:(lia))
      as [e [He _]].
    exists e. split; [exact He | intros H; contradiction].
  - destruct (find_operation (String c r)) as [[i operation]|] eqn:Hop.
    + pose proof (find_operation_bounds _ _ _ Hop) as Hi. simpl in Hi.
      cbv zeta. destruct i as [|i].
      * rewrite substring_0_0, (parse_empty lib e0 Hempty). cbn [bind].
        exists e0. split; reflexivity.
      * change (substring 0 (S i) (String c r))
          with (String c (substring 0 i r)).
        pose proof (occurrences_substring_le "(" r 0 i) as Hle.
        destruct (IH (substring 0 i r)) as [e [He Hplain]].
        { unfold Wf_nat.ltof. rewrite length_prefix; lia. }
        { lia. }
        rewrite He. cbn [bind]. exists e. split; [reflexivity|].
        intros Hzero. apply Hplain. lia.
    + exfalso. apply (Hspec (getPriority (getOperationFromChar c)) 0 Hp).
      exists c. repeat split; auto. intros [_ Heq]. contradiction.
Qed.

End Operands.

(** X8. With a [std::stod] that rejects the empty string and the lone
    minus sign, an expression that ends in an operator sign never
    compiles, whatever stands before the sign: [parseToken] throws. *)
Theorem trailing_operator_throws (lib : Library) (e0 e1 : exception) :
  std_stod lib "" = Throw e0 ->
  std_stod lib "-" = Throw e1 ->
  forall x c,
    getOperationFromChar c <> NONE ->
    exists e, parseToken lib (x ++ String c "") = Some (Throw e).
Proof.
  intros Hempty Hminus x c Hc.
  apply (trailing_operator_rec lib e0 e1 Hempty c Hminus Hc
           (occurrences "(" x)).
  lia.
Qed.

Lemma trailing_operator_throws_witness :
  (exists e, parseToken reference ("2*3" ++ String "+" "") = Some (Throw e))
  /\ (exists e,
        parseToken reference ("(1+2)" ++ String "-" "") = Some (Throw e)).
Proof.
  split;
    apply (trailing_operator_throws reference invalid_argument
             invalid_argument);
    try reflexivity; discriminate.
Defined.

(** X9. With a [std::stod] that rejects the empty string, an expression
    that begins with an operator sign other than the minus sign never
    compiles, whatever follows the sign: [parseToken] throws. Without an
    opening parenthesis the exception is the one of [std::stod] on the
    empty string. *)
Theorem leading_operator_throws (lib : Library) (e0 : exception) :
  std_stod lib "" = Throw e0 ->
  forall c r,
    getOperationFromChar c <> NONE ->
    c <> "-"%char ->
    (exists e, parseToken lib (String c r) = Some (Throw e))
    /\ (occurrences "(" r = 0 ->
        parseToken lib (String c r) = Some (Throw e0)).
Proof.
  intros Hempty c r Hc Hminus.
  destruct (leading_operator_rec lib e0 Hempty c Hc Hminus
              (occurrences "(" r) r (Nat.le_refl _)) as [e [He Hplain]].
  split; [eauto|]. intros Hzero. rewrite <- (Hplain Hzero). exact He.
Qed.

Lemma leading_operator_throws_witness :
  parseToken reference "*5+3" = Some (Throw invalid_argument)
  /\ exists e, parseToken reference "+(2*3)" = Some (Throw e).
Proof.
  split.
  - apply (leading_operator_throws reference invalid_argument);
      try reflexivity; discriminate.
  - apply (leading_operator_throws reference invalid_argument);
      try reflexivity; discriminate.
Defined.

(** ** The earlier parser on expressions without parenthesis *)

Lemma legacy_scan_sound (priority : Z) (rest : string) :
  forall i k operation,
    Legacy.scan_operation priority rest i = Some (k, operation) ->
    i <= k < i + length rest
    /\ exists c, get (k - i) rest = Some c
                 /\ operation = getOperationFromChar c.
Proof.
  induction rest as [|c rest IH]; intros i k operation H; [discriminate H|].
  simpl in H.
  assert (Hnext : Legacy.scan_operation priority rest (S i)
                  = Some (k, operation) ->
                  i <= k < i + length (String c rest)
                  /\ exists c', get (k - i) (String c rest) = Some c'
                                /\ operation = getOperationFromChar c').
  { intros H'. destruct (IH _ _ _ H') as [Hk (c' & Hget & Hop)].
    simpl. split; [lia|]. exists c'. split; [|exact Hop].
    replace (k - i) with (S (k - S i)) by lia. exact Hget. }
  destruct (Operation_eqb (getOperationFromChar c) NONE); [auto|].
  destruct (negb _); [auto|].
  injection H as <- <-. simpl. split; [lia|].
  exists c. rewrite Nat.sub_diag. auto.
Qed.

Lemma legacy_find_operation_sound (s : string) (k : nat)
  (operation : Operation) :
  Legacy.find_operation s = Some (k, operation) ->
  k < length s
  /\ exists c, get k s = Some c /\ operation = getOperationFromChar c.
Proof.
  unfold Legacy.find_operation, MIN_PRIORITY, MAX_PRIORITY. simpl.
  assert (Hscan : forall priority,
            Legacy.scan_operation priority s 0 = Some (k, operation) ->
            k < length s
            /\ exists c, get k s = Some c
                         /\ operation = getOperationFromChar c).
  { intros priority H. apply legacy_scan_sound in H.
    rewrite Nat.sub_0_r in H. destruct H as [Hk H]. split; [lia | exact H]. }
  destruct (Legacy.scan_operation 1 s 0) as [found|] eqn:H1;
    [intros [= ->]; eauto|].
  destruct (Legacy.scan_operation 2 s 0) as [found|] eqn:H2;
    [intros [= ->]; eauto|].
  destruct (Legacy.scan_operation 3 s 0) as [found|] eqn:H3;
    [intros [= ->]; eauto|].
  discriminate.
Qed.

Lemma legacy_find_operation_leading (c : ascii) (r : string) :
  getOperationFromChar c <> NONE ->
  exists k operation,
    Legacy.find_operation (String c r) = Some (k, operation).
Proof.
  intros Hc.
  unfold Legacy.find_operation, MIN_PRIORITY, MAX_PRIORITY. simpl.
  destruct (getOperationFromChar c) eqn:Hop; try congruence; simpl;
    repeat match goal with
    | |- context [match ?scan with Some _ => _ | None => _ end] =>
        destruct scan as [[? ?]|]; [eauto|]
    end; eauto.
Qed.

Lemma legacy_find_operation_plain (s : string) :
  occurrences "-" s = 0 -> find_operation s = Legacy.find_operation s.
Proof.
  intros Hminus.
  destruct (legacy_find_operation s) as [Hfound | Hsame]; [|exact Hsame].
  exfalso. apply legacy_find_operation_sound in Hfound.
  destruct Hfound as [_ (c & Hget & Hop)].
  symmetry in Hop. apply (proj1 (getOperationFromChar_MIN c)) in Hop. subst c.
  destruct s as [|c0 s]; [discriminate Hget|].
  simpl in Hget. injection Hget as ->. simpl in Hminus. discriminate Hminus.
Qed.

Section Earlier.

Variable lib : Library.

Lemma legacy_parse_empty (e0 : exception) (groups size : nat) :
  std_stod lib "" = Throw e0 ->
  Legacy.parseToken_rec lib groups size "" = Some (Throw e0).
Proof.
  intros Hempty. rewrite legacy_parseToken_rec_eq.
  change (find_group "" 0) with (@None (nat * nat)).
  change (Legacy.find_operation "") with (@None (nat * Operation)).
  cbv iota. unfold parseNumber. cbn [String.eqb]. rewrite Hempty. reflexivity.
Qed.

Lemma legacy_leading_rec (e0 : exception) (c : ascii) :
  std_stod lib "" = Throw e0 ->
  getOperationFromChar c <> NONE ->
  forall groups size r,
    occurrences "(" r <= groups -> S (length r) <= size ->
    exists e,
      Legacy.parseToken_rec lib groups size (String c r) = Some (Throw e)
      /\ (occurrences "(" r = 0 -> e = e0).
Proof.
  intros Hempty Hc.
  induction groups as [groups IHg] using lt_wf_ind.
  induction size as [size IHs] using lt_wf_ind.
  intros r Hg Hs.
  rewrite legacy_parseToken_rec_eq.
  destruct (find_group (String c r) 0) as [[i j]|] eqn:Hgroup.
  - pose proof (find_group_occurrences _ _ _ Hgroup) as Hsub.
    rewrite (occurrences_cons _ c r), (operator_not_open c Hc) in Hsub.
    destruct groups as [|g]; [lia|]. cbv zeta.
    pose proof (legacy_rec_refines lib e0 Hempty g
                  (length (substring (i + 1) (j - i - 1) (String c r)))
                  (substring (i + 1) (j - i - 1) (String c r))
                  ltac:(lia) ltac:(lia)) as Htotal.
    destruct (Legacy.parseToken_rec lib g _
                (substring (i + 1) (j - i - 1) (String c r)))
      as [[token|e]|]; [| |contradiction]; cbn [bind].
    2:{ exists e. split; [reflexivity | intros H; lia]. }
    pose proof (newExpression_occurrences lib _ _ _ (resolve lib token)
                  Hgroup) as Hocc.
    pose proof (find_group_bounds _ _ _ _ Hgroup) as (_ & _ & _ & Hget).
    rewrite Nat.sub_0_r in Hget.
    destruct i as [|i].
    { simpl in Hget. injection Hget as ->. exfalso. apply Hc. reflexivity. }
    change (substring 0 (S i) (String c r))
      with (String c (substring 0 i r)) in Hocc |- *.
    simpl append in Hocc |- *.
    rewrite !occurrences_cons, (operator_not_open c Hc) in Hocc.
    destruct (IHg g (Nat.lt_succ_diag_r g)
                (length (String c (substring 0 i r
                   ++ std_to_string lib (resolve lib token)
                   ++ substr_from (String c r) (j + 1))))
                (substring 0 i r ++ std_to_string lib (resolve lib token)
                 ++ substr_from (String c r) (j + 1))
                ltac:(lia) ltac:(simpl; lia))
      as [e [He _]].
    exists e. split; [exact He | intros H; lia].
  - destruct (legacy_find_operation_leading c r Hc) as (k & operation & Hop).
    rewrite Hop.
    pose proof (legacy_find_operation_sound _ _ _ Hop) as [Hk _].
    simpl in Hk.
    destruct size as [|n]; [lia|].
    destruct k as [|k].
    + rewrite substring_0_0, (legacy_parse_empty e0 groups n Hempty).
      cbn [bind]. exists e0. split; reflexivity.
    + change (substring 0 (S k) (String c r))
        with (String c (substring 0 k r)).
      pose proof (occurrences_substring_le "(" r 0 k) as Hle.
      pose proof (length_prefix r k ltac:(lia)) as Hlen.
      destruct (IHs n (Nat.lt_succ_diag_r n) (substring 0 k r)
                  ltac:(lia) ltac:(lia)) as [e [He Hplain]].
      rewrite He. cbn [bind]. exists e. split; [reflexivity|].
      intros Hzero. apply Hplain. lia.
Qed.

Lemma legacy_plain_rec (groups : nat) :
  forall size s,
    occurrences "(" s = 0 ->
    occurrences "-" s = 0 ->
    Legacy.parseToken_rec lib groups size s
    = parseToken_rec lib groups size s.
Proof.
  induction size as [|n IH]; intros s Hopen Hminus;
    rewrite legacy_parseToken_rec_eq, parseToken_rec_eq,
      (find_group_none s Hopen), (legacy_find_operation_plain s Hminus);
    destruct (Legacy.find_operation s) as [[i operation]|];
    try reflexivity.
  pose proof (occurrences_substring_le "(" s 0 i).
  pose proof (occurrences_substring_le "-" s 0 i).
  pose proof (occurrences_suffix_le "(" s (i + 1)).
  pose proof (occurrences_suffix_le "-" s (i + 1)).
  rewrite !IH by lia. reflexivity.
Qed.

End Earlier.

(** X10. With a [std::stod] that rejects the empty string, the parser of
    part_000 never compiles an expression that begins with an operator
    sign, the minus sign included: it throws, and without an opening
    parenthesis the exception is the one of [std::stod] on the empty
    string. *)
Theorem legacy_leading_operator_throws (lib : Library) (e0 : exception) :
  std_stod lib "" = Throw e0 ->
  forall c r,
    getOperationFromChar c <> NONE ->
    (exists e, Legacy.parseToken lib (String c r) = Some (Throw e))
    /\ (occurrences "(" r = 0 ->
        Legacy.parseToken lib (String c r) = Some (Throw e0)).
Proof.
  intros Hempty c r Hc.
  assert (Hcount : occurrences "(" (String c r) = occurrences "(" r).
  { rewrite occurrences_cons, (operator_not_open c Hc). reflexivity. }
  destruct (legacy_leading_rec lib e0 c Hempty Hc (occurrences "(" r)
              (length (String c r)) r (Nat.le_refl _) (Nat.le_refl _))
    as [e [He Hplain]].
  unfold Legacy.parseToken. rewrite Hcount.
  split; [eauto|]. intros Hzero. rewrite <- (Hplain Hzero). exact He.
Qed.

Lemma legacy_leading_operator_throws_witness :
  Legacy.parseToken reference "-2+5" = Some (Throw invalid_argument)
  /\ exists e, Legacy.parseToken reference "-(2+5)" = Some (Throw e).
Proof.
  split.
  - apply (legacy_leading_operator_throws reference invalid_argument);
      try reflexivity; discriminate.
  - apply (legacy_leading_operator_throws reference invalid_argument);
      try reflexivity; discriminate.
Defined.

(** X11. On an expression without opening parenthesis and without minus
    sign the parser of part_000 and the parser of main.cpp return the same
    result: the same tree or the same exception. *)
Theorem legacy_agrees_without_minus (lib : Library) (s : string) :
  occurrences "(" s = 0 ->
  occurrences "-" s = 0 ->
  Legacy.parseToken lib s = parseToken lib s.
Proof.
  intros Hopen Hminus. apply legacy_plain_rec; assumption.
Qed.

Lemma legacy_agrees_without_minus_witness :
  Legacy.parseToken reference "2*3+4^5/6" = parseToken reference "2*3+4^5/6"
  /\ Legacy.parseToken reference "2++3" = parseToken reference "2++3".
Proof.
  split; apply legacy_agrees_without_minus; reflexivity.
Defined.

(** ** The loop of [main] *)

Section Sessions.

Variable lib : Library.

Lemma main_loop_reply (action : string) (cin : list string) :
  action <> "o" -> action <> "q" ->
  main_loop lib (action :: cin)
  = (reply action :: fst (main_loop lib cin), snd (main_loop lib cin)).
Proof.
  intros Ho Hq. cbn [main_loop]. unfold reply.
  destruct (action =? "h"); [reflexivity|].
  rewrite (proj2 (String.eqb_neq _ _) Hq), (proj2 (String.eqb_neq _ _) Ho).
  reflexivity.
Qed.

Lemma main_loop_replies (cin rest : list string) :
  Forall (fun action => action <> "o" /\ action <> "q") cin ->
  main_loop lib (cin ++ rest)
  = ((map reply cin ++ fst (main_loop lib rest))%list,
     snd (main_loop lib rest)).
Proof.
  induction 1 as [|action cin [Ho Hq] _ IH].
  - simpl. destruct (main_loop lib rest). reflexivity.
  - rewrite <- app_comm_cons, (main_loop_reply _ _ Ho Hq), IH. reflexivity.
Qed.

Lemma outcome_skip (action : string) (cin es : list string) (o : output)
  (run : list output * status) :
  (forall s v, o <> Answer s v) ->
  outcome lib cin es run ->
  outcome lib (action :: cin) es (o :: fst run, snd run).
Proof.
  intros Ho (Ha & Hr & Ht). split; [|split]; simpl.
  - intros s v [H | H]; [exfalso; apply (Ho s v H) | apply (Ha s v H)].
  - intros code H. destruct (Hr code H) as (Hcode & Hq & Hes).
    split; [exact Hcode|]. split; [right; exact Hq | exact Hes].
  - intros e H. destruct (Ht e H) as (Hin & Hfirst).
    split; [right; exact Hin | exact Hfirst].
Qed.

Lemma outcome_operation (expression_str : string) (cin cin' es : list string)
  (run : list output * status) :
  (forall action, In action cin' -> In action cin) ->
  In "o" cin ->
  outcome lib cin' es run ->
  outcome lib cin (expression_str :: es)
    (operation_action lib expression_str run).
Proof.
  intros Hin Ho (Ha & Hr & Ht). unfold operation_action.
  destruct (compileExpression lib expression_str) as [[t|e]|] eqn:Hc;
    (split; [|split]); simpl.
  - intros s v [H | [H | H]]; [discriminate H | |].
    + injection H as <- <-. split; [left; reflexivity|].
      exists t. split; [exact Hc | reflexivity].
    + destruct (Ha s v H) as (Hs & Hv). split; [right; exact Hs | exact Hv].
  - intros code H. destruct (Hr code H) as (Hcode & Hq & Hes).
    split; [exact Hcode|]. split; [apply Hin, Hq|].
    intros s [<- | Hs]; [exists t; exact Hc | apply Hes, Hs].
  - intros e H. destruct (Ht e H) as (_ & before & s & after & -> & Hb & Hs).
    split; [exact Ho|].
    exists (expression_str :: before), s, after. split; [reflexivity|].
    split; [|exact Hs].
    intros x [<- | Hx]; [exists t; exact Hc | apply Hb, Hx].
  - intros s v [H | []]. discriminate H.
  - intros code H. discriminate H.
  - intros e' H. injection H as <-. split; [exact Ho|].
    exists [], expression_str, es. split; [reflexivity|].
    split; [intros x [] | exact Hc].
  - intros s v [H | []]. discriminate H.
  - intros code H. discriminate H.
  - intros e H. discriminate H.
Qed.

Lemma outcome_end (cin : list string) (end_status : status) :
  (forall code, end_status = Returned code -> code = 0%Z /\ In "q" cin) ->
  (forall e, end_status <> Terminated e) ->
  outcome lib cin [] ([], end_status).
Proof.
  intros Hr Ht. split; [|split]; simpl.
  - intros s v [].
  - intros code H. destruct (Hr code H) as [Hcode Hq].
    split; [exact Hcode|]. split; [exact Hq | intros s []].
  - intros e H. exfalso. apply (Ht e H).
Qed.

Lemma main_loop_outcome (cin : list string) :
  outcome lib cin (expressions cin) (main_loop lib cin).
Proof.
  induction cin as [cin IH] using (well_founded_induction
    (Wf_nat.well_founded_ltof _ (@List.length string))).
  destruct cin as [|action cin'].
  - apply outcome_end; [discriminate | discriminate].
  - cbn [main_loop expressions].
    destruct (action =? "h") eqn:Hh.
    { apply String.eqb_eq in Hh. subst action. simpl.
      apply outcome_skip; [discriminate|]. apply IH. unfold Wf_nat.ltof.
      simpl. lia. }
    destruct (action =? "q") eqn:Hq.
    { apply String.eqb_eq in Hq. subst action.
      apply outcome_end; [|discriminate].
      intros code [= <-]. split; [reflexivity | left; reflexivity]. }
    destruct (action =? "o") eqn:Ho.
    + apply String.eqb_eq in Ho. subst action.
      destruct cin' as [|expression_str cin''].
      * apply (outcome_operation "" _ []); [intros a [] | left; reflexivity|].
        apply outcome_end; [discriminate | discriminate].
      * apply (outcome_operation expression_str _ cin'').
        -- intros a Ha. right. right. exact Ha.
        -- left. reflexivity.
        -- apply IH. unfold Wf_nat.ltof. simpl. lia.
    + apply outcome_skip; [discriminate|]. apply IH. unfold Wf_nat.ltof.
      simpl. lia.
Qed.

End Sessions.

(** X12. Lines that are neither [o] nor [q] are answered one by one, by the
    help text for [h] and by the unrecognized-action message for anything
    else. After such lines: a line [q] makes [main] return 0 and nothing
    that follows is read; a line [o] followed by an expression that
    compiles prints the prompt and the value of the tree, and the loop
    goes on; a line [o] followed by an expression whose compilation throws
    terminates the process after the prompt; and at the end of the input
    the loop goes on for ever. *)
Theorem shell_session (lib : Library) (cin rest : list string) :
  Forall (fun action => action <> "o" /\ action <> "q") cin ->
  main lib (cin ++ "q" :: rest) = (Welcome :: map reply cin, Returned 0)
  /\ (forall s t,
        compileExpression lib s = Some (Ok t) ->
        main lib (cin ++ "o" :: s :: rest)
        = (Welcome :: (map reply cin
             ++ Prompt :: Answer s (resolve lib t) :: fst (main_loop lib rest))%list,
           snd (main_loop lib rest)))
  /\ (forall s e,
        compileExpression lib s = Some (Throw e) ->
        main lib (cin ++ "o" :: s :: rest)
        = (Welcome :: (map reply cin ++ [Prompt])%list, Terminated e))
  /\ main lib cin = (Welcome :: map reply cin, Spinning).
Proof.
  intros Hcin. unfold main. repeat split.
  - rewrite (main_loop_replies lib cin _ Hcin). simpl.
    rewrite app_nil_r. reflexivity.
  - intros s t Hc. rewrite (main_loop_replies lib cin _ Hcin).
    cbn [main_loop String.eqb Ascii.eqb Bool.eqb].
    unfold operation_action. rewrite Hc. reflexivity.
  - intros s e Hc. rewrite (main_loop_replies lib cin _ Hcin).
    cbn [main_loop String.eqb Ascii.eqb Bool.eqb].
    unfold operation_action. rewrite Hc. reflexivity.
  - pose proof (main_loop_replies lib cin [] Hcin) as Hend.
    rewrite (app_nil_r cin) in Hend. rewrite Hend. simpl.
    rewrite app_nil_r. reflexivity.
Qed.

Lemma shell_session_witness :
  main reference (["h"; "x"; ""] ++ "q" :: ["o"; "1+1"])
  = ([Welcome; Help; Unrecognized; Unrecognized], Returned 0)
  /\ main reference (["h"] ++ "o" :: "2 * (3 + 4)" :: ["q"])
     = ([Welcome; Help; Prompt; Answer "2 * (3 + 4)" 14%float], Returned 0)
  /\ main reference (["h"] ++ "o" :: "2+" :: ["q"])
     = ([Welcome; Help; Prompt], Terminated invalid_argument).
Proof.
  assert (Hh : Forall (fun action : string => action <> "o" /\ action <> "q")
                 ["h"]).
  { repeat constructor; discriminate. }
  split; [|split].
  - destruct (shell_session reference ["h"; "x"; ""] ["o"; "1+1"])
      as (Hquit & _); [repeat constructor; discriminate|].
    exact Hquit.
  - destruct (shell_session reference ["h"] ["q"] Hh) as (_ & Hok & _).
    rewrite (Hok "2 * (3 + 4)"
               (OperationToken MUL (NumberToken 2%float) (NumberToken 7%float)))
      by (vm_compute; reflexivity).
    vm_compute. reflexivity.
  - destruct (shell_session reference ["h"] ["q"] Hh) as (_ & _ & Hthrow & _).
    apply Hthrow. vm_compute. reflexivity.
Defined.

(** X13. Whatever is typed, with [expressions cin] the lines that are read
    as expressions: every answer the loop prints is for one of these
    lines, and is the value of the tree the line compiles to; [main]
    returns only the code 0, only if a line [q] was typed and only if
    every expression compiled; the process is terminated only if a line
    [o] was typed, and then by the exception that the compilation of the
    first expression that does not compile throws. *)
Theorem shell_outcomes (lib : Library) (cin : list string) :
  (forall s v,
     In (Answer s v) (fst (main lib cin)) ->
     In s (expressions cin)
     /\ exists t, compileExpression lib s = Some (Ok t) /\ v = resolve lib t)
  /\ (forall code,
        snd (main lib cin) = Returned code ->
        code = 0%Z /\ In "q" cin
        /\ forall s, In s (expressions cin) ->
                     exists t, compileExpression lib s = Some (Ok t))
  /\ (forall e,
        snd (main lib cin) = Terminated e ->
        In "o" cin
        /\ exists before s after,
             expressions cin = (before ++ s :: after)%list
             /\ (forall x, In x before ->
                   exists t, compileExpression lib x = Some (Ok t))
             /\ compileExpression lib s = Some (Throw e)).
Proof.
  destruct (main_loop_outcome lib cin) as (Ha & Hr & Ht).
  unfold main. split; [|split]; simpl.
  - intros s v [H | H]; [discriminate H | apply (Ha s v H)].
  - exact Hr.
  - exact Ht.
Qed.

Lemma shell_outcomes_witness :
  (In "8-3-2" (expressions ["o"; "8-3-2"; "q"])
   /\ exists t,
        compileExpression reference "8-3-2" = Some (Ok t)
        /\ 7%float = resolve reference t)
  /\ (In "o" ["o"; "1+1"; "h"; "o"; "2+"; "q"]
      /\ exists before s after,
           expressions ["o"; "1+1"; "h"; "o"; "2+"; "q"]
           = (before ++ s :: after)%list
           /\ (forall x, In x before ->
                 exists t, compileExpression reference x = Some (Ok t))
           /\ compileExpression reference s = Some (Throw invalid_argument)).
Proof.
  destruct (shell_outcomes reference ["o"; "8-3-2"; "q"]) as (Hanswer & _ & _).
  destruct (shell_outcomes reference ["o"; "1+1"; "h"; "o"; "2+"; "q"])
    as (_ & _ & Hthrow).
  split.
  - apply Hanswer. vm_compute. right. right. left. reflexivity.
  - apply Hthrow. vm_compute. reflexivity.
Defined.

(** ** A minus sign after a product sign *)

Section Signs.

Variable lib : Library.
Variables e0 e1 : exception.
Hypothesis Hempty : std_stod lib "" = Throw e0.
Hypothesis Hminus : std_stod lib "-" = Throw e1.

Lemma minus_after_product_rec (c : ascii) :
  (2 <= getPriority (getOperationFromChar c))%Z ->
  forall size x y,
    length x <= size ->
    occurrences "(" (x ++ y) = 0 ->
    exists e, parseToken lib (x ++ String c (String "-" y)) = Some (Throw e).
Proof.
  intros Hpriority.
  assert (Hc : getOperationFromChar c <> NONE).
  { intros H. rewrite H in Hpriority. simpl in Hpriority. lia. }
  induction size as [size IH] using lt_wf_ind.
  intros x y Hsize Hopen.
  rewrite occurrences_app in Hopen.
  assert (Hgroup : find_group (x ++ String c (String "-" y)) 0 = None).
  { apply find_group_none.
    rewrite occurrences_app, !occurrences_cons, (operator_not_open c Hc).
    simpl. lia. }
  assert (Hsign : splits_at (x ++ String c (String "-" y)) 1 (length x + 1)).
  { exists "-"%char. rewrite get_append. simpl. repeat split.
    intros [H _]. lia. }
  pose proof (find_operation_spec (x ++ String c (String "-" y))) as Hspec.
  destruct (find_operation (x ++ String c (String "-" y)))
    as [[i operation]|] eqn:Hop.
  2:{ exfalso. apply (Hspec 1%Z (length x + 1)); [lia | exact Hsign]. }
  destruct Hspec as (priority & ch & Hp & Hget & _ & Hsplit & Hfirst & Hlooser).
  assert (priority = 1%Z) as ->.
  { destruct (Z.eq_dec priority 1) as [H | H]; [exact H|].
    exfalso. apply (Hlooser 1%Z (length x + 1)); [lia | exact Hsign]. }
  assert (Hi : i <= length x + 1).
  { destruct (Nat.le_gt_cases i (length x + 1)) as [H | H]; [exact H|].
    exfalso. apply (Hfirst (length x + 1) H Hsign). }
  assert (Hne : i <> length x).
  { intros ->. destruct Hsplit as (ch' & Hget' & Hch' & _).
    rewrite <- (Nat.add_0_r (length x)) in Hget' at 1.
    rewrite get_append in Hget'. simpl in Hget'. injection Hget' as <-.
    lia. }
  rewrite (parse_split lib _ i operation _ _ Hgroup Hop eq_refl eq_refl).
  destruct (Nat.eq_dec i (length x + 1)) as [-> | Hlt].
  - replace (x ++ String c (String "-" y))
      with ((x ++ String c "") ++ String "-" y)
      by (rewrite append_assoc; reflexivity).
    replace (length x + 1) with (length (x ++ String c ""))
      by (rewrite length_append; reflexivity).
    rewrite prefix_of_append.
    destruct (trailing_operator_rec lib e0 e1 Hempty c Hminus Hc
                (occurrences "(" x) x (Nat.le_refl _)) as [e He].
    rewrite He. cbn [bind]. eauto.
  - destruct (parseToken_total lib
                (substring 0 i (x ++ String c (String "-" y))))
      as [[a|e] Ha]; rewrite Ha; cbn [bind]; [|eauto].
    rewrite suffix_of_longer by lia.
    pose proof (occurrences_suffix_le "(" x (i + 1)) as Hle.
    pose proof (length_suffix x (i + 1)) as Hlen.
    destruct (IH (length (substr_from x (i + 1))) ltac:(lia)
                (substr_from x (i + 1)) y (Nat.le_refl _)) as [e He].
    { rewrite occurrences_app. lia. }
    rewrite He. cbn [bind]. eauto.
Qed.

End Signs.

(** X14. With a [std::stod] that rejects the empty string and the lone
    minus sign, an expression without opening parenthesis in which a minus
    sign stands directly after [*], [/] or [^] never compiles: the minus
    sign is taken for a subtraction, and the text to its left ends in an
    operator sign. *)
Theorem minus_after_product_throws (lib : Library) (e0 e1 : exception) :
  std_stod lib "" = Throw e0 ->
  std_stod lib "-" = Throw e1 ->
  forall x c y,
    (2 <= getPriority (getOperationFromChar c))%Z ->
    occurrences "(" (x ++ y) = 0 ->
    exists e, parseToken lib (x ++ String c (String "-" y)) = Some (Throw e).
Proof.
  intros Hempty Hminus x c y Hc Hopen.
  apply (minus_after_product_rec lib e0 e1 Hempty Hminus c Hc (length x));
    [lia | exact Hopen].
Qed.

Lemma minus_after_product_throws_witness :
  (exists e, parseToken reference ("2" ++ String "*" (String "-" "3"))
             = Some (Throw e))
  /\ (exists e, parseToken reference ("1+2" ++ String "^" (String "-" "1/4"))
                = Some (Throw e)).
Proof.
  split;
    apply (minus_after_product_throws reference invalid_argument
             invalid_argument);
    try reflexivity; vm_compute; discriminate.
Defined.

(** X15. With such a [std::stod], a group whose value [std::to_string]
    writes with a minus sign cannot stand directly after [*], [/] or [^]:
    when the group and the text around it hold no further parenthesis, the
    expression never compiles. *)
Theorem negative_group_after_product_throws (lib : Library)
  (e0 e1 : exception) :
  std_stod lib "" = Throw e0 ->
  std_stod lib "-" = Throw e1 ->
  forall pre c x post token digits,
    (2 <= getPriority (getOperationFromChar c))%Z ->
    occurrences "(" pre = 0 ->
    occurrences "(" x = 0 ->
    occurrences ")" x = 0 ->
    occurrences "(" post = 0 ->
    parseToken lib x = Some (Ok token) ->
    std_to_string lib (resolve lib token) = String "-" digits ->
    exists e,
      parseToken lib (pre ++ String c (String "(" (x ++ String ")" post)))
      = Some (Throw e).
Proof.
  intros Hempty Hminus pre c x post token digits Hc Hpre Hx Hclose Hpost
    Htoken Hvalue.
  assert (Hop : getOperationFromChar c <> NONE).
  { intros H. rewrite H in Hc. simpl in Hc. lia. }
  pose proof (to_string_plain lib (resolve lib token)) as Hplain.
  rewrite Hvalue, occurrences_cons in Hplain. simpl in Hplain.
  replace (pre ++ String c (String "(" (x ++ String ")" post)))
    with ((pre ++ String c "") ++ String "(" (x ++ String ")" post))
    by (rewrite append_assoc; reflexivity).
  rewrite plain_group_step; [|
    rewrite occurrences_app, occurrences_cons, (operator_not_open c Hop);
    simpl; lia | exact Hx | exact Hclose].
  rewrite Htoken. cbn [bind]. rewrite Hvalue, append_assoc. simpl append.
  apply (minus_after_product_rec lib e0 e1 Hempty Hminus c Hc (length pre));
    [lia|].
  rewrite !occurrences_app. lia.
Qed.

Lemma negative_group_after_product_throws_witness :
  exists e,
    parseToken reference ("2" ++ String "*" (String "(" ("1-3" ++ String ")" "")))
    = Some (Throw e).
Proof.
  apply (negative_group_after_product_throws reference invalid_argument
           invalid_argument) with
    (token := OperationToken MIN (NumberToken 1%float) (NumberToken 3%float))
    (digits := "2.000000");
    try reflexivity; vm_compute; try reflexivity; discriminate.
Defined.

(** * Expressions that do not compile *)

(** ** Operands *)

Lemma operand_texts_nonempty (s : string) :
  forall sign, operand_texts_from sign s <> [].
Proof.
  destruct s as [|c r]; intros sign; simpl; [discriminate|].
  destruct (separates sign c); [discriminate|].
  destruct (operand_texts_from false r); discriminate.
Qed.

Lemma first_throw_app {A : Type} (rs rs' : list (result A)) :
  first_throw (rs ++ rs') =
  match first_throw rs with
  | Some e => Some e
  | None => first_throw rs'
  end.
Proof.
  induction rs as [|[v|e] rs IH]; simpl; auto.
Qed.

Lemma priority_operator (c : ascii) :
  (1 <= getPriority (getOperationFromChar c))%Z -> is_operator c = true.
Proof.
  unfold is_operator. destruct (getOperationFromChar c); simpl; try reflexivity.
  lia.
Qed.

Lemma operator_priority (c : ascii) :
  is_operator c = true -> getOperationFromChar c <> NONE.
Proof.
  unfold is_operator. intros H Hnone. rewrite Hnone in H. discriminate H.
Qed.

(** Only a minus sign at its head makes the operands of a text depend on
    the place the text starts in. *)
Lemma operand_texts_flag (s : string) :
  (forall r, s <> String "-" r) ->
  forall sign sign', operand_texts_from sign s = operand_texts_from sign' s.
Proof.
  intros Hhead sign sign'. destruct s as [|c r]; [reflexivity|].
  assert (Hc : Ascii.eqb c "-" = false).
  { apply Ascii.eqb_neq. intros ->. apply (Hhead r). reflexivity. }
  simpl. unfold separates. rewrite Hc, !andb_false_r. reflexivity.
Qed.

Lemma operand_texts_whole (s : string) :
  forall sign,
    (forall k c, get k s = Some c -> is_operator c = true ->
                 k = 0 /\ sign = true /\ c = "-"%char) ->
    operand_texts_from sign s = [s].
Proof.
  induction s as [|a s IH]; intros sign H; [reflexivity|].
  assert (Hsep : separates sign a = false).
  { unfold separates. destruct (is_operator a) eqn:Ha; [|reflexivity].
    destruct (H 0 a eq_refl Ha) as (_ & -> & ->). reflexivity. }
  simpl. rewrite Hsep, (IH false); [reflexivity|].
  intros k c Hget Hc. destruct (H (S k) c Hget Hc) as [Hk _]. discriminate Hk.
Qed.

Lemma operand_texts_split (s : string) :
  forall sign i c,
    get i s = Some c ->
    separates_at sign s i = true ->
    operand_texts_from sign s =
    (operand_texts_from sign (substring 0 i s)
     ++ operand_texts_from (getPriority (getOperationFromChar c) =? 1)%Z
          (substr_from s (i + 1)))%list.
Proof.
  induction s as [|a s IH]; intros sign [|i] c Hget Hsep;
    try discriminate Hget.
  - simpl in Hget. injection Hget as ->. simpl in Hsep.
    rewrite substring_0_0. simpl Nat.add.
    rewrite substr_from_cons, substr_from_0.
    simpl. rewrite Hsep. reflexivity.
  - simpl in Hget. simpl in Hsep.
    change (substring 0 (S i) (String a s))
      with (String a (substring 0 i s)).
    simpl Nat.add. rewrite substr_from_cons.
    replace (S i) with (i + 1) by lia.
    simpl operand_texts_from.
    destruct (separates sign a) eqn:Ha; simpl andb in Hsep.
    + rewrite (IH _ i c Hget Hsep). reflexivity.
    + rewrite (IH _ i c Hget Hsep).
      pose proof (operand_texts_nonempty (substring 0 i s) false) as Hne.
      destruct (operand_texts_from false (substring 0 i s)) as [|x xs];
        [contradiction|].
      reflexivity.
Qed.

Lemma separates_at_other (s : string) :
  forall sign i c,
    get i s = Some c -> is_operator c = true -> c <> "-"%char ->
    separates_at sign s i = true.
Proof.
  induction s as [|a s IH]; intros sign [|i] c Hget Hc Hminus;
    try discriminate Hget; simpl in *.
  - injection Hget as ->. unfold separates. rewrite Hc.
    apply Ascii.eqb_neq in Hminus. rewrite Hminus, andb_false_r. reflexivity.
  - apply (IH _ i c Hget Hc Hminus).
Qed.

Lemma separates_at_minus (s : string) :
  forall sign i,
    get (S i) s = Some "-"%char ->
    (forall k c, k <= i -> get k s = Some c ->
                 getPriority (getOperationFromChar c) = 1%Z ->
                 k = 0 /\ sign = true /\ c = "-"%char) ->
    separates_at sign s (S i) = true.
Proof.
  induction s as [|a s IH]; intros sign i Hget Hlevel; [discriminate Hget|].
  simpl in Hget. simpl separates_at.
  assert (Hnext : separates sign a
                  && (getPriority (getOperationFromChar a) =? 1)%Z = false).
  { destruct (Z.eqb_spec (getPriority (getOperationFromChar a)) 1)
      as [Ha | Ha]; [|apply andb_false_r].
    destruct (Hlevel 0 a ltac:(lia) eq_refl Ha) as (_ & -> & ->).
    reflexivity. }
  rewrite Hnext.
  destruct i as [|i].
  - destruct s as [|b s]; [discriminate Hget|].
    simpl in Hget. injection Hget as ->. reflexivity.
  - apply IH; [exact Hget|].
    intros k c Hk Hc Hp.
    destruct (Hlevel (S k) c ltac:(lia) Hc Hp) as [Hzero _].
    discriminate Hzero.
Qed.

Lemma suffix_first (s : string) :
  forall k c r, substr_from s k = String c r -> get k s = Some c.
Proof.
  induction s as [|a s IH]; intros [|k] c r H.
  - discriminate H.
  - discriminate H.
  - rewrite substr_from_0 in H. injection H as -> _. reflexivity.
  - rewrite substr_from_cons in H. simpl. apply (IH k c r H).
Qed.

Lemma sign_place_dec (k : nat) (c : ascii) :
  (k = 0 /\ c = "-"%char) \/ ~ (k = 0 /\ c = "-"%char).
Proof.
  destruct k as [|k]; [|right; intros [H _]; discriminate H].
  destruct (ascii_dec c "-") as [-> | Hc]; [left; auto|].
  right. intros [_ H]. contradiction.
Qed.

(** Where [find_operation] splits, an operator sign stands between two
    operands, and the text behind it starts a new operand. *)
Lemma find_operation_separates (s : string) (i : nat) (operation : Operation) :
  find_operation s = Some (i, operation) ->
  operand_texts s =
  (operand_texts (substring 0 i s)
   ++ operand_texts (substr_from s (i + 1)))%list.
Proof.
  intros Hop. pose proof (find_operation_spec s) as Hspec.
  rewrite Hop in Hspec.
  destruct Hspec as (p & c & Hp & Hget & _ & Hsplit & Hfirst & Hlooser).
  destruct Hsplit as (c' & Hget' & Hprio & Hsign).
  rewrite Hget in Hget'. injection Hget' as <-.
  assert (Hc : is_operator c = true) by (apply priority_operator; lia).
  assert (Hat : separates_at true s i = true).
  { destruct (ascii_dec c "-") as [-> | Hminus];
      [|apply (separates_at_other s true i c Hget Hc Hminus)].
    destruct i as [|i]; [exfalso; apply Hsign; auto|].
    apply separates_at_minus; [exact Hget|].
    intros k d Hk Hd Hlevel.
    destruct (sign_place_dec k d) as [[-> ->] | Hno]; [auto|].
    exfalso. apply (Hfirst k ltac:(lia)). exists d.
    split; [exact Hd|]. split; [|exact Hno].
    rewrite Hlevel, <- Hprio. reflexivity. }
  unfold operand_texts.
  rewrite (operand_texts_split s true i c Hget Hat). f_equal.
  destruct (Z.eqb_spec (getPriority (getOperationFromChar c)) 1)
    as [Hone | Hmore]; [reflexivity|].
  apply operand_texts_flag. intros r Hr.
  apply suffix_first in Hr.
  apply (Hlooser 1%Z (i + 1)); [lia|].
  exists "-"%char. split; [exact Hr|]. split; [reflexivity|].
  intros [Hzero _]. lia.
Qed.

Lemma find_operation_whole (s : string) :
  find_operation s = None -> operand_texts s = [s].
Proof.
  intros Hop. pose proof (find_operation_spec s) as Hspec.
  rewrite Hop in Hspec. apply operand_texts_whole.
  intros k c Hget Hc.
  destruct (sign_place_dec k c) as [[-> ->] | Hno]; [auto|].
  exfalso.
  apply (Hspec (getPriority (getOperationFromChar c)) k
           (priority_range c (operator_priority c Hc))).
  exists c. split; [exact Hget|]. split; [reflexivity | exact Hno].
Qed.

Section Failures.

Variable lib : Library.

(** Without a group to fold, [parseToken] hands the operands to
    [parseNumber] from left to right and stops at the first that is
    rejected. *)
Lemma parse_operand_texts :
  forall size s,
    length s <= size ->
    find_group s 0 = None ->
    match parseToken lib s with
    | Some (Ok _) => rejected lib s = None
    | Some (Throw e) => rejected lib s = Some e
    | None => False
    end.
Proof.
  induction size as [size IH] using lt_wf_ind.
  intros s Hsize Hgroup. unfold rejected.
  destruct (find_operation s) as [[i operation]|] eqn:Hop.
  - rewrite (parse_split lib s i operation _ _ Hgroup Hop eq_refl eq_refl).
    rewrite (find_operation_separates s i operation Hop), map_app,
      first_throw_app.
    pose proof (find_operation_bounds s i operation Hop) as Hi.
    pose proof (length_prefix s i ltac:(lia)) as Hleft.
    pose proof (length_suffix s (i + 1)) as Hright.
    pose proof (IH (length (substring 0 i s)) ltac:(lia) (substring 0 i s)
                  (Nat.le_refl _) (find_group_left s i Hgroup)) as Ha.
    pose proof (IH (length (substr_from s (i + 1))) ltac:(lia)
                  (substr_from s (i + 1)) (Nat.le_refl _)
                  (find_group_suffix s (i + 1) Hgroup)) as Hb.
    unfold rejected in Ha, Hb.
    destruct (parseToken lib (substring 0 i s)) as [[a|e]|];
      [|cbn [bind]; rewrite Ha; reflexivity|contradiction].
    rewrite Ha. cbn [bind].
    destruct (parseToken lib (substr_from s (i + 1))) as [[b|e]|];
      [|cbn [bind]; exact Hb|contradiction].
    cbn [bind ret]. exact Hb.
  - rewrite (parse_literal lib s Hgroup Hop), (find_operation_whole s Hop).
    unfold literal. simpl. destruct (parseNumber lib s); reflexivity.
Qed.

(** Whatever [parseToken] throws, [std::stod] has thrown on an operand
    that the recursion has reached. *)
Lemma thrown_by_stod (s : string) :
  forall e,
    parseToken lib s = Some (Throw e) ->
    exists text,
      reaches lib s text
      /\ find_group text 0 = None /\ find_operation text = None
      /\ text <> "pi" /\ text <> "e"
      /\ std_stod lib text = Throw e.
Proof.
  induction s as [s IH] using (well_founded_induction (calls_well_founded lib)).
  intros e Hrun. rewrite parseToken_unfold in Hrun.
  assert (Hstep : forall s', calls lib s s' ->
            parseToken lib s' = Some (Throw e) ->
            exists text,
              reaches lib s text
              /\ find_group text 0 = None /\ find_operation text = None
              /\ text <> "pi" /\ text <> "e"
              /\ std_stod lib text = Throw e).
  { intros s' Hcall Hthrow.
    destruct (IH s' Hcall e Hthrow) as (text & Hreach & Hrest).
    exists text. split; [|exact Hrest].
    apply (reaches_call lib s s' text Hcall Hreach). }
  destruct (find_group s 0) as [[i j]|] eqn:Hgroup.
  - cbv zeta in Hrun.
    destruct (parseToken lib (substring (i + 1) (j - i - 1) s))
      as [[token|e']|] eqn:Hsub; [| |discriminate]; cbn [bind] in Hrun.
    + apply (Hstep _ (calls_folded lib s i j token Hgroup Hsub) Hrun).
    + injection Hrun as <-.
      apply (Hstep _ (calls_group lib s i j Hgroup) Hsub).
  - destruct (find_operation s) as [[i operation]|] eqn:Hop.
    + cbv zeta in Hrun.
      destruct (parseToken lib (substring 0 i s))
        as [[a|e']|] eqn:Ha; [| |discriminate]; cbn [bind] in Hrun.
      * destruct (parseToken lib (substr_from s (i + 1)))
          as [[b|e']|] eqn:Hb; try discriminate; cbn [bind] in Hrun.
        injection Hrun as <-.
        apply (Hstep _ (calls_right lib s i operation a Hgroup Hop Ha) Hb).
      * injection Hrun as <-.
        apply (Hstep _ (calls_left lib s i operation Hgroup Hop) Ha).
    + unfold parseNumber in Hrun.
      destruct (String.eqb_spec s "pi") as [Hpi | Hpi]; [discriminate|].
      destruct (String.eqb_spec s "e") as [He | He]; [discriminate|].
      destruct (std_stod lib s) as [v|e'] eqn:Hstod; [discriminate|].
      injection Hrun as <-. exists s.
      split; [apply reaches_self|]. auto.
Qed.

End Failures.

(** C7, as the code has it. The compilation fails by an exception and by
    nothing else: one that [std::stod] has thrown on a text that the
    recursion has reached and that holds no group and no operator sign to
    split at. A failed compilation returns no tree.

    An expression in which no opening parenthesis is closed fails exactly
    when [parseNumber] rejects one of its operands, the texts between the
    operator signs, and then with the exception of the leftmost operand
    that is rejected. With a [std::stod] that rejects a text that does not
    start with a number, these are the expressions with an empty operand
    ([2+]) or an operand that starts with something else ([(1+2], [abc]).
    An expression with a group to fold fails exactly when the text of
    the group fails, or when the text with the printed value in place of
    the group does. With groups too, an expression that ends in an
    operator sign, or begins with one other than the minus sign, fails.

    [main] has no handler: when the compilation of the line throws, the
    process is terminated by that exception. *)
Theorem malformed_input_throws (lib : Library) :
  (forall s e,
     parseToken lib s = Some (Throw e) ->
     exists text,
       reaches lib s text
       /\ find_group text 0 = None /\ find_operation text = None
       /\ text <> "pi" /\ text <> "e"
       /\ std_stod lib text = Throw e)
  /\ (forall s,
        (forall i j, get i (remove_spaces s) = Some "("%char ->
                     ~ closes (remove_spaces s) i j) ->
        (forall e,
           compileExpression lib s = Some (Throw e) <->
           rejected lib (remove_spaces s) = Some e)
        /\ ((exists t, compileExpression lib s = Some (Ok t)) <->
            rejected lib (remove_spaces s) = None))
  /\ (forall s i j e,
        find_group s 0 = Some (i, j) ->
        (parseToken lib s = Some (Throw e) <->
         parseToken lib (substring (i + 1) (j - i - 1) s) = Some (Throw e)
         \/ exists token,
              parseToken lib (substring (i + 1) (j - i - 1) s)
              = Some (Ok token)
              /\ parseToken lib
                   (substring 0 i s
                    ++ std_to_string lib (resolve lib token)
                    ++ substr_from s (j + 1))
                 = Some (Throw e)))
  /\ (forall e0 e1,
        std_stod lib "" = Throw e0 ->
        std_stod lib "-" = Throw e1 ->
        forall x c,
          getOperationFromChar c <> NONE ->
          (exists e, parseToken lib (x ++ String c "") = Some (Throw e))
          /\ (c <> "-"%char ->
              exists e, parseToken lib (String c x) = Some (Throw e)))
  /\ (forall expression_str e,
        compileExpression lib expression_str = Some (Throw e) ->
        calculate lib expression_str = Some (Throw e)
        /\ forall cin,
             main lib ("o" :: expression_str :: cin)
             = ([Welcome; Prompt], Terminated e)).
Proof.
  split; [|split; [|split; [|split]]].
  - intros s. apply thrown_by_stod.
  - intros s Hopen.
    assert (Hgroup : find_group (remove_spaces s) 0 = None).
    { destruct (find_group (remove_spaces s) 0) as [[i j]|] eqn:Hfound;
        [|reflexivity].
      destruct (find_group_first_closed _ i j Hfound) as (Hget & _ & Hc & _).
      exfalso. apply (Hopen i j Hget Hc). }
    pose proof (parse_operand_texts lib (length (remove_spaces s))
                  (remove_spaces s) (Nat.le_refl _) Hgroup) as Hrun.
    unfold compileExpression.
    destruct (parseToken lib (remove_spaces s)) as [[t|e']|];
      [| |contradiction]; rewrite Hrun.
    + split.
      * intros e. split; intros H; discriminate H.
      * split; [reflexivity | eauto].
    + split.
      * intros e. split; intros H; injection H as <-; reflexivity.
      * split; [intros [t H]; discriminate H | intros H; discriminate H].
  - intros s i j e Hgroup.
    rewrite (parse_group lib s i j _ _ _ Hgroup eq_refl eq_refl eq_refl).
    destruct (parseToken lib (substring (i + 1) (j - i - 1) s))
      as [[token|e']|]; cbn [bind].
    + split.
      * intros H. right. exists token. split; [reflexivity | exact H].
      * intros [H | (token' & Heq & H)]; [discriminate H|].
        injection Heq as <-. exact H.
    + split.
      * intros H. left. exact H.
      * intros [H | (token' & Heq & _)]; [exact H | discriminate Heq].
    + split.
      * intros H. discriminate H.
      * intros [H | (token' & Heq & _)]; [discriminate H | discriminate Heq].
  - intros e0 e1 Hempty Hminus x c Hc. split.
    + apply (trailing_operator_rec lib e0 e1 Hempty c Hminus Hc
               (occurrences "(" x)). lia.
    + intros Hsign.
      destruct (leading_operator_rec lib e0 Hempty c Hc Hsign
                  (occurrences "(" x) x (Nat.le_refl _)) as [e [He _]].
      eauto.
  - intros expression_str e Hthrow. split.
    + unfold calculate. rewrite Hthrow. reflexivity.
    + intros cin. unfold main. cbn [main_loop String.eqb Ascii.eqb Bool.eqb].
      unfold operation_action. rewrite Hthrow. reflexivity.
Qed.

Lemma malformed_input_throws_witness :
  operand_texts "2+" = ["2"; ""]
  /\ compileExpression reference "2+" = Some (Throw invalid_argument)
  /\ operand_texts "(1+2" = ["(1"; "2"]
  /\ compileExpression reference "(1+2" = Some (Throw invalid_argument)
  /\ compileExpression reference "abc" = Some (Throw invalid_argument)
  /\ (exists e, parseToken reference ("(1+2)*3" ++ String "/" "")
                = Some (Throw e))
  /\ main reference ["o"; "2+"; "q"]
     = ([Welcome; Prompt], Terminated invalid_argument).
Proof.
  destruct (malformed_input_throws reference)
    as (_ & Hplain & _ & Hsign & Hmain).
  assert (Hthrows : forall s,
            find_group (remove_spaces s) 0 = None ->
            rejected reference (remove_spaces s) = Some invalid_argument ->
            compileExpression reference s = Some (Throw invalid_argument)).
  { intros s Hgroup Hrejected.
    apply (Hplain s (find_group_unclosed _ Hgroup)). exact Hrejected. }
  assert (H2 : compileExpression reference "2+" = Some (Throw invalid_argument))
    by (apply Hthrows; reflexivity).
  split; [reflexivity|]. split; [exact H2|].
  split; [reflexivity|]. split; [apply Hthrows; reflexivity|].
  split; [apply Hthrows; reflexivity|]. split.
  - destruct (Hsign invalid_argument invalid_argument eq_refl eq_refl
                "(1+2)*3" "/"%char) as [Hend _]; [discriminate|].
    exact Hend.
  - apply (Hmain "2+" invalid_argument H2).
Defined.

(** C7 as stated fails twice: on the malformed [abc] the process is
    terminated by the exception, and the malformed [1+2)] is compiled
    without any error, to the tree of 1+2. *)
Lemma malformed_input_crashes_or_passes :
  main reference ["o"; "abc"; "q"]
  = ([Welcome; Prompt], Terminated invalid_argument)
  /\ compileExpression reference "1+2)"
     = Some (Ok (OperationToken SUM (NumberToken 1%float)
                   (NumberToken 2%float)))
  /\ calculate reference "1+2)" = Some (Ok 3%float).
Proof.
  repeat split; vm_compute; reflexivity.
Qed.
